(** * fdice: dice-notation compiler and modifier engine

    A shallow embedding of [src/fdice.js].

    - Strings are Rocq [string]s, one [ascii] per code unit.  Code units
      above 255 are outside the model; the chunk grammar accepts none.
    - Numbers are [Z].  Every number the program reads is an integer
      clamped to the safe-integer range, and sums are exact: the rounding
      of doubles beyond 2^53 is not modelled.
    - Arrays are [list]s.  Where a function writes to an array it was
      given, the array lives in a store ([gmap Ref (list Z)]).
    - A thrown error is the [Throw] outcome at compile time and the
      [Raise] outcome at evaluation time.
    - The closures [createRoll] and [parse] return are the values they
      close over, interpreted by [runRoll] and [evaluator].
    - The random source [random.die] is a parameter that threads its own
      state. *)

From Stdlib Require Import ZArith Ascii String Lia.
From stdpp Require Import base list strings sorting gmap.

Local Open Scope Z_scope.

(** ** Configuration constants *)

Definition MAX_CHUNKS : Z := 10.
Definition MAX_DICE : Z := 100.
Definition MAX_FACES : Z := 1000.
Definition MAX_LENGTH : Z := 60.

(** ** Errors

    The six error classes of the module, and [TypeError] for the errors
    the JavaScript runtime itself raises ([reduce] on an empty array,
    a property read on [null]). *)

Inductive Error : Type :=
  | ExpressionTooLongError
  | InvalidChunkError
  | DieTooBigError
  | TooManyDiceError
  | RollLimitExceededError
  | TooManyChunksError
  | TypeError.

#[global] Instance Error_eq_dec : EqDecision Error.
Proof. solve_decision. Defined.

(** The error kinds of the module's error table. *)
Definition documented (e : Error) : bool :=
  match e with TypeError => false | _ => true end.

(** Outcome of a compile-time computation. *)
Inductive Res (A : Type) : Type :=
  | Ok (a : A)
  | Throw (e : Error).
Arguments Ok {A} a.
Arguments Throw {A} e.

Definition res_bind {A B} (m : Res A) (k : A → Res B) : Res B :=
  match m with Ok a => k a | Throw e => Throw e end.

(** [Array.prototype.map] with a callback that may throw: elements are
    visited left to right and the first throw aborts the whole map. *)
Fixpoint res_map {A B} (f : A → Res B) (l : list A) : Res (list B) :=
  match l with
  | [] => Ok []
  | x :: xs =>
      res_bind (f x) (λ y, res_bind (res_map f xs) (λ ys, Ok (y :: ys)))
  end.

(** ** Characters and strings *)

Module Js.

Definition isDigit (c : ascii) : bool :=
  let n := N_of_ascii c in ((48 <=? n) && (n <=? 57))%N.

Definition isSign (c : ascii) : bool :=
  Ascii.eqb c "+" || Ascii.eqb c "-".

(** The character class [[a-z!]]. *)
Definition isLowerOrBang (c : ascii) : bool :=
  let n := N_of_ascii c in ((97 <=? n) && (n <=? 122))%N || Ascii.eqb c "!".

(** Line terminators, which the regex [.] does not match. *)
Definition isLineTerminator (c : ascii) : bool :=
  let n := N_of_ascii c in ((n =? 10) || (n =? 13))%N.

Definition lowerChar (c : ascii) : ascii :=
  let n := N_of_ascii c in
  if ((65 <=? n) && (n <=? 90))%N then ascii_of_N (n + 32) else c.

Definition upperChar (c : ascii) : ascii :=
  let n := N_of_ascii c in
  if ((97 <=? n) && (n <=? 122))%N then ascii_of_N (n - 32) else c.

Fixpoint mapChars (f : ascii → ascii) (s : string) : string :=
  match s with
  | EmptyString => EmptyString
  | String c r => String (f c) (mapChars f r)
  end.

Definition toLower : string → string := mapChars lowerChar.
Definition toUpperCase : string → string := mapChars upperChar.

(** [replaceAll(' ', '')]: [haystack.split(' ').join('')]. *)
Fixpoint removeSpaces (s : string) : string :=
  match s with
  | EmptyString => EmptyString
  | String c r =>
      if Ascii.eqb c " " then removeSpaces r else String c (removeSpaces r)
  end.

Definition length (s : string) : Z := Z.of_nat (String.length s).

Definition startsWith (s : string) (c : ascii) : bool :=
  match s with
  | String c' _ => Ascii.eqb c' c
  | EmptyString => false
  end.

(** [s.indexOf(c) !== -1]. *)
Fixpoint contains (c : ascii) (s : string) : bool :=
  match s with
  | EmptyString => false
  | String c' r => Ascii.eqb c' c || contains c r
  end.

(** [s.substr(n)] for [n] 0 or 1. *)
Definition dropFirst (s : string) : string :=
  match s with
  | String _ r => r
  | EmptyString => EmptyString
  end.

(** Greedy [\d*]: the longest prefix of digits, and what follows. *)
Fixpoint spanDigits (s : string) : string * string :=
  match s with
  | String c r =>
      if isDigit c then
        let '(ds, rest) := spanDigits r in (String c ds, rest)
      else (EmptyString, s)
  | EmptyString => (EmptyString, EmptyString)
  end.

Fixpoint allDigits (s : string) : bool :=
  match s with
  | EmptyString => true
  | String c r => isDigit c && allDigits r
  end.

Definition digitValue (c : ascii) : Z := Z.of_N (N_of_ascii c) - 48.

(** Value of a run of decimal digits, most significant first. *)
Fixpoint decimal (acc : Z) (s : string) : Z :=
  match s with
  | EmptyString => acc
  | String c r => decimal (10 * acc + digitValue c) r
  end.

Definition MAX_SAFE_INTEGER : Z := 9007199254740991.

Definition clamp (z : Z) : Z :=
  Z.max (- MAX_SAFE_INTEGER) (Z.min MAX_SAFE_INTEGER z).

(** lodash [toSafeInteger] on the strings the program passes to it,
    all of the shape [[+-]?\d*]: a signed run of digits converts to its
    value, clamped to the safe-integer range; anything that is not a
    number (a bare sign, for one) converts to NaN and then to 0. *)
Definition toSafeInteger (s : string) : Z :=
  match s with
  | EmptyString => 0
  | String c r =>
      if Ascii.eqb c "-" then
        if allDigits r then clamp (- decimal 0 r) else 0
      else if Ascii.eqb c "+" then
        if allDigits r then clamp (decimal 0 r) else 0
      else if allDigits s then clamp (decimal 0 s) else 0
  end.

End Js.

(** ** Chunk splitter *)

(** The lookbehind class [[rt!]]. *)
Definition takesSignedArg (c : ascii) : bool :=
  Ascii.eqb c "r" || Ascii.eqb c "t" || Ascii.eqb c "!".

(** The split regex [/(?<![rt!])(?=[+-])/] matches (with zero width)
    before [c] when [c] is a sign and the character before it, if any, is
    none of [r], [t], [!]. *)
Definition splitsBefore (prev : option ascii) (c : ascii) : bool :=
  Js.isSign c && negb (from_option takesSignedArg false prev).

(** [String.prototype.split] with that regex: scan left to right with the
    piece [cur] read since the last split; a match at the start of the
    current piece (where [cur] is empty) is skipped, any other match
    closes the piece. *)
Fixpoint chunkFrom (prev : option ascii) (cur : string) (s : string)
  : list string :=
  match s with
  | EmptyString => [cur]
  | String c r =>
      if splitsBefore prev c && negb (String.eqb cur "") then
        cur :: chunkFrom (Some c) (String c "") r
      else chunkFrom (Some c) (cur +:+ String c "") r
  end.

Definition chunk (str : string) : list string := chunkFrom None "" str.

(** Concatenation of chunk strings, in order. *)
Definition joinChunks (chunks : list string) : string :=
  foldr String.append "" chunks.

(** ** Chunk grammar *)

(** Named groups of a [DICE_CHUNK] match; [modifier] is [None] when the
    optional group did not take part. *)
Record Groups : Type := mkGroups {
  g_num : string;
  g_die : string;
  g_modifier : option string;
}.

(** [DICE_MODIFIERS = '[dk][lh]\d*|[rt!][+-]?\d*'] matched at the start
    of [s]: the matched text and the remainder. *)
Definition matchModifier (s : string) : option (string * string) :=
  match s with
  | String c1 r1 =>
      let keepDrop :=
        match r1 with
        | String c2 r2 =>
            if (Ascii.eqb c1 "d" || Ascii.eqb c1 "k")
               && (Ascii.eqb c2 "l" || Ascii.eqb c2 "h") then
              let '(ds, rest) := Js.spanDigits r2 in
              Some (String c1 (String c2 ds), rest)
            else None
        | EmptyString => None
        end in
      match keepDrop with
      | Some m => Some m
      | None =>
          if takesSignedArg c1 then
            match r1 with
            | String c2 r2 =>
                if Js.isSign c2 then
                  let '(ds, rest) := Js.spanDigits r2 in
                  Some (String c1 (String c2 ds), rest)
                else
                  let '(ds, rest) := Js.spanDigits r1 in
                  Some (String c1 ds, rest)
            | EmptyString => Some (String c1 "", EmptyString)
            end
          else None
      end
  | EmptyString => None
  end.

(** The [die] group [f|%|[\d]+] at the start of [s]. *)
Definition matchDie (s : string) : option (string * string) :=
  match s with
  | String c r =>
      if Ascii.eqb c "f" || Ascii.eqb c "%" then Some (String c "", r)
      else
        let '(ds, rest) := Js.spanDigits s in
        if String.eqb ds "" then None else Some (ds, rest)
  | EmptyString => None
  end.

(** [DICE_CHUNK] matched at the start of [s]: the groups and the
    remainder.  Every quantifier is greedy and no shorter choice can make
    a later token match, so the match is found without backtracking. *)
Definition matchDiceChunkAt (s : string) : option (Groups * string) :=
  let '(num, r1) := Js.spanDigits s in
  match r1 with
  | String c r2 =>
      if Ascii.eqb c "d" then
        match matchDie r2 with
        | Some (die, r3) =>
            match matchModifier r3 with
            | Some (m, r4) => Some (mkGroups num die (Some m), r4)
            | None => Some (mkGroups num die None, r3)
            end
        | None => None
        end
      else None
  | EmptyString => None
  end.

(** [VALID_CHUNK = ^([+-]?)(DICE_CHUNK|\d+)$]. *)
Definition validChunk (s : string) : bool :=
  let body :=
    match s with
    | String c r => if Js.isSign c then r else s
    | EmptyString => s
    end in
  match matchDiceChunkAt body with
  | Some (_, EmptyString) => true
  | _ => negb (String.eqb body "") && Js.allDigits body
  end.

Definition isInvalidChunk (chunk : string) : bool := negb (validChunk chunk).

(** [str.match(DICE_CHUNK)]: the pattern is not anchored, so the first
    position at which it matches is taken; [None] is JavaScript's
    [null]. *)
Fixpoint searchDiceChunk (s : string) : option Groups :=
  match matchDiceChunkAt s with
  | Some (g, _) => Some g
  | None =>
      match s with
      | String _ r => searchDiceChunk r
      | EmptyString => None
      end
  end.

(** ** Modifier engine *)

(** The comparators and the summation helper. *)
Definition sum (acc val : Z) : Z := acc + val.
Definition asc (a b : Z) : Z := a - b.
Definition desc (a b : Z) : Z := b - a.

(** [Array.prototype.sort(cmp)] orders [a] before [b] when
    [cmp a b <= 0]; the sort is stable, which cannot be observed on
    integers, so any sorting algorithm gives the array it produces. *)
Definition ordersBefore (cmp : Z → Z → Z) : relation Z :=
  λ a b, cmp a b ≤ 0.

#[global] Instance ordersBefore_dec cmp a b : Decision (ordersBefore cmp a b).
Proof. unfold ordersBefore. apply _. Defined.

Definition jsSort (cmp : Z → Z → Z) (a : list Z) : list Z :=
  merge_sort (ordersBefore cmp) a.

(** lodash [takeWhile] and [dropWhile]: the predicate receives the value
    and its index, and the scan stops at the first index that fails. *)
Fixpoint takeWhileFrom (i : Z) (p : Z → Z → bool) (l : list Z) : list Z :=
  match l with
  | [] => []
  | v :: r => if p v i then v :: takeWhileFrom (i + 1) p r else []
  end.

Fixpoint dropWhileFrom (i : Z) (p : Z → Z → bool) (l : list Z) : list Z :=
  match l with
  | [] => []
  | v :: r => if p v i then dropWhileFrom (i + 1) p r else l
  end.

Definition takeWhile (l : list Z) (p : Z → Z → bool) : list Z :=
  takeWhileFrom 0 p l.
Definition dropWhile (l : list Z) (p : Z → Z → bool) : list Z :=
  dropWhileFrom 0 p l.

(** Arrays are mutable objects: a caller's array lives in a store under a
    reference, and [rolls.sort(cmp)] writes the sorted contents back to
    the very object it was given. *)
Definition Ref : Type := positive.

Definition arraySort (cmp : Z → Z → Z) (rolls : Ref)
  (σ : gmap Ref (list Z)) : gmap Ref (list Z) :=
  <[rolls := jsSort cmp (σ !!! rolls)]> σ.

(** The keep and drop modifiers.  Each sorts the array it is given in
    place and returns a new array cut from it; the model returns the new
    array's contents and the store after the call. *)
Definition keepHighest (arg : Z) (rolls : Ref) (σ : gmap Ref (list Z))
  : list Z * gmap Ref (list Z) :=
  let σ' := arraySort desc rolls σ in
  (takeWhile (σ' !!! rolls) (λ v i, i <? arg), σ').

Definition keepLowest (arg : Z) (rolls : Ref) (σ : gmap Ref (list Z))
  : list Z * gmap Ref (list Z) :=
  let σ' := arraySort asc rolls σ in
  (takeWhile (σ' !!! rolls) (λ v i, i <? arg), σ').

Definition dropLowest (arg : Z) (rolls : Ref) (σ : gmap Ref (list Z))
  : list Z * gmap Ref (list Z) :=
  let σ' := arraySort asc rolls σ in
  (dropWhile (σ' !!! rolls) (λ v i, i <? arg), σ').

Definition dropHighest (arg : Z) (rolls : Ref) (σ : gmap Ref (list Z))
  : list Z * gmap Ref (list Z) :=
  let σ' := arraySort desc rolls σ in
  (dropWhile (σ' !!! rolls) (λ v i, i <? arg), σ').

(** A modifier applied to an array nobody else holds, as in the chunk
    pipeline where the array comes straight from [rollDice(num)()]: only
    the returned array matters. *)
Definition onFreshArray
  (f : Ref → gmap Ref (list Z) → list Z * gmap Ref (list Z))
  (rolls : list Z) : list Z :=
  fst (f 1%positive {[ 1%positive := rolls ]}).

(** [rolls.flatMap(r => r === arg ? [r, r] : r)]. *)
Definition twice (arg : Z) (rolls : list Z) : list Z :=
  flat_map (λ r, if r =? arg then [r; r] else [r]) rolls.

(** While [explode] runs, the array holds numbers and the marker ['X']. *)
Inductive Cell : Type :=
  | Num (z : Z)
  | X.

(** [r === arg] for a cell [r] and a number [arg]. *)
Definition isArg (arg : Z) (c : Cell) : bool :=
  match c with Num z => z =? arg | X => false end.

(** [r === 'X' ? arg : r]. *)
Definition unmark (arg : Z) (c : Cell) : Z :=
  match c with X => arg | Num z => z end.

(** Outcome of an evaluation: a value, a thrown error, or the loop bound
    of the model running out before the code returned. *)
Inductive Outcome (A : Type) : Type :=
  | Done (a : A)
  | Raise (e : Error)
  | OutOfFuel.
Arguments Done {A} a.
Arguments Raise {A} e.
Arguments OutOfFuel {A}.

Definition run_bind {A B} (m : Outcome A) (k : A → Outcome B) : Outcome B :=
  match m with
  | Done a => k a
  | Raise e => Raise e
  | OutOfFuel => OutOfFuel
  end.

Section RandomSource.

(** [random.die]: one call with a number of faces returns a value and
    advances the source. *)
Context {Rand : Type} (random_die : Z → Rand → Z * Rand).

(** A [reroll] argument, read through [reroll()[0]]. *)
Definition Roller : Type := Rand → Z * Rand.

(** [rolls.map(r => r === arg ? reroll()[0] : r)]. *)
Fixpoint reroll (arg : Z) (roll1 : Roller) (rolls : list Z) (g : Rand)
  : list Z * Rand :=
  match rolls with
  | [] => ([], g)
  | r :: rs =>
      if r =? arg then
        let '(v, g1) := roll1 g in
        let '(out, g2) := reroll arg roll1 rs g1 in
        (v :: out, g2)
      else
        let '(out, g2) := reroll arg roll1 rs g in
        (r :: out, g2)
  end.

(** One pass of the explode loop:
    [newRolls.flatMap(r => r === arg ? ['X', reroll()[0]] : r)]. *)
Fixpoint explodePass (arg : Z) (roll1 : Roller) (cells : list Cell)
  (g : Rand) : list Cell * Rand :=
  match cells with
  | [] => ([], g)
  | c :: cs =>
      if isArg arg c then
        let '(v, g1) := roll1 g in
        let '(out, g2) := explodePass arg roll1 cs g1 in
        (X :: Num v :: out, g2)
      else
        let '(out, g2) := explodePass arg roll1 cs g in
        (c :: out, g2)
  end.

(** [while (sentinel-- > 0 && newRolls.some(i => i === arg)) { ... }]:
    each unit of fuel pays for one evaluation of the loop condition,
    which decrements [sentinel] whether or not it holds.  The result is
    the state after the loop, or [None] when the fuel is spent. *)
Fixpoint explodeLoop (fuel : nat) (arg : Z) (roll1 : Roller)
  (sentinel : Z) (newRolls : list Cell) (g : Rand)
  : option (Z * list Cell * Rand) :=
  match fuel with
  | O => None
  | S fuel' =>
      if (0 <? sentinel) && existsb (isArg arg) newRolls then
        let '(newRolls', g') := explodePass arg roll1 newRolls g in
        explodeLoop fuel' arg roll1 (sentinel - 1) newRolls' g'
      else Some (sentinel - 1, newRolls, g)
  end.

Definition explode (fuel : nat) (arg : Z) (roll1 : Roller)
  (rolls : list Z) (g : Rand) : Outcome (list Z * Rand) :=
  match
    explodeLoop fuel arg roll1 (MAX_DICE - Z.of_nat (length rolls))
      (map Num rolls) g
  with
  | None => OutOfFuel
  | Some (sentinel, newRolls, g') =>
      if sentinel <? 0 then Raise RollLimitExceededError
      else Done (map (unmark arg) newRolls, g')
  end.

End RandomSource.

(** ** Chunk compiler *)

(** The entries of the [modifierFunctions] table. *)
Inductive ModKind : Type :=
  | Reroll
  | Twice
  | Explode
  | KeepHighest
  | KeepLowest
  | DropHighest
  | DropLowest.

#[global] Instance ModKind_eq_dec : EqDecision ModKind.
Proof. solve_decision. Defined.

(** [modifierFunctions[func]]; [None] is a missing key. *)
Definition modifierFunctions (func : string) : option ModKind :=
  if String.eqb func "R" then Some Reroll
  else if String.eqb func "T" then Some Twice
  else if String.eqb func "!" then Some Explode
  else if String.eqb func "KH" then Some KeepHighest
  else if String.eqb func "KL" then Some KeepLowest
  else if String.eqb func "DH" then Some DropHighest
  else if String.eqb func "DL" then Some DropLowest
  else None.

Definition defaultModifierArg (modifier : string) (num lowest highest : Z)
  : Z :=
  if String.eqb modifier "R" then lowest
  else if String.eqb modifier "T" then highest
  else if String.eqb modifier "!" then highest
  else Z.min 1 (num - 1).

(** The longest prefix whose characters satisfy [p], and what follows. *)
Fixpoint spanWhile (p : ascii → bool) (s : string) : string * string :=
  match s with
  | String c r =>
      if p c then let '(a, b) := spanWhile p r in (String c a, b)
      else (EmptyString, s)
  | EmptyString => (EmptyString, EmptyString)
  end.

(** [modifier.match] with the pattern of [createModifier]: group [func]
    is a longest run of [[a-z!]], one character at least, at the first
    position that has one; group [rest] is everything after it up to a
    line terminator.  [None] is [null]. *)
Fixpoint matchFuncRest (s : string) : option (string * string) :=
  match s with
  | String c r =>
      if Js.isLowerOrBang c then
        let '(func, after) := spanWhile Js.isLowerOrBang s in
        Some (func, fst (spanWhile (λ x, negb (Js.isLineTerminator x)) after))
      else matchFuncRest r
  | EmptyString => None
  end.

(** What [createModifier] returns: [None] for the identity
    [rolls => rolls], otherwise the table entry with the argument it was
    given.  The [reroll] parameter is the chunk's own [rollDice(1)], which
    [applyModifier] rebuilds from the chunk's die and offset. *)
Definition createModifier (modifier : option string) (num highest lowest : Z)
  : Res (option (ModKind * Z)) :=
  match modifier with
  | None => Ok None
  | Some m =>
      match matchFuncRest m with
      | None => Throw TypeError
      | Some (func, rest) =>
          let func := Js.toUpperCase func in
          let arg :=
            if Js.length rest =? 0
            then defaultModifierArg func num highest lowest
            else Js.toSafeInteger rest in
          match modifierFunctions func with
          | Some f => Ok (Some (f, arg))
          | None => Throw TypeError
          end
      end
  end.

(** The closure [createRoll] returns, as the values it closes over. *)
Record CompiledRoll : Type := mkRoll {
  negative : bool;
  num : Z;
  die : Z;
  offset : Z;
  applyModifier : option (ModKind * Z);
}.

#[global] Instance CompiledRoll_eq_dec : EqDecision CompiledRoll.
Proof. solve_decision. Defined.

Definition createRoll (chunk : string) : Res CompiledRoll :=
  let negative := Js.startsWith chunk "-" in
  let rollExpr :=
    if negative || Js.startsWith chunk "+" then Js.dropFirst chunk
    else chunk in
  match searchDiceChunk rollExpr with
  | None => Throw TypeError
  | Some g =>
      let num :=
        if Js.length (g_num g) =? 0 then 1 else Js.toSafeInteger (g_num g) in
      if num >? MAX_DICE then Throw TooManyDiceError
      else
        let die := Js.toUpperCase (g_die g) in
        let offset := if String.eqb die "F" then -2 else 0 in
        let die :=
          if String.eqb die "%" then 100
          else if String.eqb die "F" then 3
          else Js.toSafeInteger die in
        if die >? MAX_FACES then Throw DieTooBigError
        else
          res_bind
            (createModifier (g_modifier g) num (1 + offset) (die + offset))
            (λ applyModifier,
               Ok (mkRoll negative num die offset applyModifier))
  end.

(** A compiled chunk: [createConst] keeps the chunk text and converts it
    on every call. *)
Inductive Part : Type :=
  | ConstPart (chunk : string)
  | RollPart (r : CompiledRoll).

Definition createConst (chunk : string) : Res Part := Ok (ConstPart chunk).

Definition createPart (chunk : string) : Res Part :=
  if negb (Js.contains "d" chunk) then createConst chunk
  else res_bind (createRoll chunk) (λ r, Ok (RollPart r)).

(** ** Expression compiler *)

(** [parse]: the compiled chunks the returned evaluator closes over.
    Memoisation is not modelled: compilation is a function of the
    expression text alone. *)
Definition parse (expr : string) : Res (list Part) :=
  if Js.length expr >? MAX_LENGTH then Throw ExpressionTooLongError
  else
    let chunks := chunk (Js.removeSpaces (Js.toLower expr)) in
    if Z.of_nat (length chunks) >? MAX_CHUNKS then Throw TooManyChunksError
    else if existsb isInvalidChunk chunks then Throw InvalidChunkError
    else res_map createPart chunks.

(** The normalisation [parse] applies before it splits. *)
Definition normalize (expr : string) : string :=
  Js.removeSpaces (Js.toLower expr).

(** ** Evaluation *)

(** What one chunk function returns. *)
Inductive PartValue : Type :=
  | Scalar (z : Z)
  | Pool (rolls : list Z).

(** What the evaluator returns: the sum, or the per-chunk breakdown. *)
Inductive Value : Type :=
  | Reduced (z : Z)
  | Unreduced (parts : list PartValue).

(** [Array.prototype.flat()], one level deep. *)
Definition flat (l : list PartValue) : list Z :=
  flat_map (λ v, match v with Scalar z => [z] | Pool rolls => rolls end) l.

(** [Array.prototype.reduce(sum)] without an initial value: the first
    element seeds the accumulator, and an empty array is a TypeError. *)
Definition reduceSum {A} (l : list Z) (k : Z → Outcome A) : Outcome A :=
  match l with
  | [] => Raise TypeError
  | x :: xs => k (fold_left sum xs x)
  end.

Section Evaluation.

Context {Rand : Type} (random_die : Z → Rand → Z * Rand).

(** One die of [diceFunc(die, offset)]: [random.die(die) + offset]. *)
Definition rollOne (die offset : Z) : Roller (Rand := Rand) :=
  λ g, let '(v, g') := random_die die g in (v + offset, g').

(** [new Array(num).fill(0).map(() => random.die(die) + offset)]. *)
Fixpoint rollMany (die offset : Z) (n : nat) (g : Rand) : list Z * Rand :=
  match n with
  | O => ([], g)
  | S n' =>
      let '(v, g1) := rollOne die offset g in
      let '(rest, g2) := rollMany die offset n' g1 in
      (v :: rest, g2)
  end.

Definition rollDice (die offset num : Z) (g : Rand) : list Z * Rand :=
  rollMany die offset (Z.to_nat num) g.

(** The modifier function built by [createModifier], applied to the array
    just rolled; [reroll()[0]] is the one die of [rollDice(1)]. *)
Definition runModifier (fuel : nat) (r : CompiledRoll) (rolls : list Z)
  (g : Rand) : Outcome (list Z * Rand) :=
  let roll1 := rollOne (die r) (offset r) in
  match applyModifier r with
  | None => Done (rolls, g)
  | Some (Reroll, arg) => Done (reroll arg roll1 rolls g)
  | Some (Twice, arg) => Done (twice arg rolls, g)
  | Some (Explode, arg) => explode fuel arg roll1 rolls g
  | Some (KeepHighest, arg) => Done (onFreshArray (keepHighest arg) rolls, g)
  | Some (KeepLowest, arg) => Done (onFreshArray (keepLowest arg) rolls, g)
  | Some (DropHighest, arg) => Done (onFreshArray (dropHighest arg) rolls, g)
  | Some (DropLowest, arg) => Done (onFreshArray (dropLowest arg) rolls, g)
  end.

(** [roll => negative ? roll.map(r => -r) : roll]. *)
Definition maybeNegate (negative : bool) (roll : list Z) : list Z :=
  if negative then map Z.opp roll else roll.

(** [flow(rollDice(num), applyModifier, maybeNegate)]. *)
Definition runRoll (fuel : nat) (r : CompiledRoll) (g : Rand)
  : Outcome (list Z * Rand) :=
  let '(rolls, g1) := rollDice (die r) (offset r) (num r) g in
  run_bind (runModifier fuel r rolls g1)
    (λ '(out, g2), Done (maybeNegate (negative r) out, g2)).

Definition runPart (fuel : nat) (p : Part) (g : Rand)
  : Outcome (PartValue * Rand) :=
  match p with
  | ConstPart chunk => Done (Scalar (Js.toSafeInteger chunk), g)
  | RollPart r =>
      run_bind (runRoll fuel r g) (λ '(out, g'), Done (Pool out, g'))
  end.

(** [roll = () => parts.map(part => part())]. *)
Fixpoint roll (fuel : nat) (parts : list Part) (g : Rand)
  : Outcome (list PartValue * Rand) :=
  match parts with
  | [] => Done ([], g)
  | p :: ps =>
      run_bind (runPart fuel p g) (λ '(v, g1),
        run_bind (roll fuel ps g1) (λ '(vs, g2), Done (v :: vs, g2)))
  end.

(** [(reduce = true) => reduce ? roll().flat().reduce(sum) : roll()]. *)
Definition evaluator (fuel : nat) (parts : list Part) (reduce : bool)
  (g : Rand) : Outcome (Value * Rand) :=
  run_bind (roll fuel parts g) (λ '(vs, g'),
    if reduce then reduceSum (flat vs) (λ z, Done (Reduced z, g'))
    else Done (Unreduced vs, g')).

End Evaluation.

(** ** A scripted random source

    The stand-in the test-suite installs for [random.die]: for each
    number of faces a queue of values to return, in order.  A call past
    the end of its queue returns 0. *)

Definition Script : Type := list (Z * list Z).

Fixpoint scripted (faces : Z) (s : Script) : Z * Script :=
  match s with
  | [] => (0, [])
  | (f, q) :: rest =>
      if f =? faces then
        match q with
        | [] => (0, s)
        | v :: q' => (v, (f, q') :: rest)
        end
      else
        let '(v, rest') := scripted faces rest in (v, (f, q) :: rest')
  end.

(** ** Default arguments, in the specification's words

    A dice-pool chunk written without a modifier argument reads
    [sign count d faces token]; these definitions name its parts and say
    what the specification expects of each. *)

Inductive DieSpec : Type :=
  | Fudge
  | Percent
  | Faces (digits : string).

Definition dieText (d : DieSpec) : string :=
  match d with
  | Fudge => "f"
  | Percent => "%"
  | Faces digits => digits
  end.

Definition modToken (k : ModKind) : string :=
  match k with
  | Reroll => "r"
  | Twice => "t"
  | Explode => "!"
  | KeepHighest => "kh"
  | KeepLowest => "kl"
  | DropHighest => "dh"
  | DropLowest => "dl"
  end.

(** A numeric face count is a run of digits, one at least. *)
Definition wellFormedDie (d : DieSpec) : Prop :=
  match d with
  | Faces ds => ds ≠ "" ∧ Js.allDigits ds = true
  | _ => True
  end.

Definition startsWithDigit (s : string) : bool :=
  match s with String c _ => Js.isDigit c | EmptyString => false end.

(** The text [createRoll] matches against the dice pattern: the chunk
    without its sign. *)
Definition rollExprOf (chunk : string) : string :=
  if Js.startsWith chunk "-" || Js.startsWith chunk "+" then Js.dropFirst chunk
  else chunk.

(** The chunk is written with a modifier and without an argument: the
    modifier group took part in the match and [createModifier] finds
    nothing after the modifier's name. *)
Definition arglessModifier (chunk : string) : bool :=
  match searchDiceChunk (rollExprOf chunk) with
  | Some g =>
      match g_modifier g with
      | Some m =>
          match matchFuncRest m with
          | Some (_, rest) => String.eqb rest ""
          | None => false
          end
      | None => false
      end
  | None => false
  end.

Definition chunkText (sign numText : string) (d : DieSpec) (k : ModKind)
  : string :=
  sign +:+ numText +:+ "d" +:+ dieText d +:+ modToken k.

(** The count of the pool: 1 when none is written. *)
Definition poolCount (numText : string) : Z :=
  if String.eqb numText "" then 1 else Js.toSafeInteger numText.

(** The number of faces rolled, and the offset added to each roll. *)
Definition faceCount (d : DieSpec) : Z :=
  match d with
  | Fudge => 3
  | Percent => 100
  | Faces digits => Js.toSafeInteger digits
  end.

Definition faceOffset (d : DieSpec) : Z :=
  match d with Fudge => -2 | _ => 0 end.

(** The lowest and highest value a die of the pool can show. *)
Definition lowestFace (d : DieSpec) : Z :=
  match d with Fudge => -1 | _ => 1 end.

Definition highestFace (d : DieSpec) : Z :=
  match d with
  | Fudge => 1
  | Percent => 100
  | Faces digits => Js.toSafeInteger digits
  end.

(** The default argument the specification gives each modifier. *)
Definition expectedDefault (k : ModKind) (count : Z) (d : DieSpec) : Z :=
  match k with
  | Reroll => lowestFace d
  | Twice | Explode => highestFace d
  | KeepHighest | KeepLowest | DropHighest | DropLowest =>
      Z.min 1 (count - 1)
  end.

(** ** Measures for stating properties *)

(** How many rolls show [arg]. *)
Fixpoint occurrences (arg : Z) (l : list Z) : nat :=
  match l with
  | [] => O
  | r :: rs =>
      ((if Z.eqb r arg then 1 else 0) + occurrences arg rs)%nat
  end.

(** The sum of the rolls, from zero. *)
Definition sumOf (l : list Z) : Z := fold_left sum l 0.

(** [n] successive calls of a roller: the values in call order, and the
    source after the last call. *)
Fixpoint rollerCalls {Rand : Type} (roller : Roller (Rand := Rand))
  (n : nat) (g : Rand) : list Z * Rand :=
  match n with
  | O => ([], g)
  | S n' =>
      let '(v, g1) := roller g in
      let '(vs, g2) := rollerCalls roller n' g1 in
      (v :: vs, g2)
  end.

(** How many cells of an exploding array are the marker. *)
Fixpoint markers (cells : list Cell) : nat :=
  match cells with
  | [] => O
  | X :: cs => S (markers cs)
  | Num _ :: cs => markers cs
  end.

(** How many cells of an exploding array still show the target. *)
Fixpoint pending (arg : Z) (cells : list Cell) : nat :=
  match cells with
  | [] => O
  | c :: cs => ((if isArg arg c then 1 else 0) + pending arg cs)%nat
  end.

(** The array and the source after [k] passes of the explode loop. *)
Fixpoint explodePasses {Rand : Type} (arg : Z)
  (roller : Roller (Rand := Rand)) (k : nat) (cells : list Cell) (g : Rand)
  : list Cell * Rand :=
  match k with
  | O => (cells, g)
  | S k' =>
      let '(cells', g') := explodePass arg roller cells g in
      explodePasses arg roller k' cells' g'
  end.

(** ** Dice-pool chunks, as written

    A modifier as written is its kind and the text of its argument,
    which may be empty. *)

Definition modifierText (m : option (ModKind * string)) : string :=
  match m with
  | None => ""
  | Some (k, argText) => modToken k +:+ argText
  end.

Definition diceChunkText (sign numText : string) (d : DieSpec)
  (m : option (ModKind * string)) : string :=
  sign +:+ numText +:+ "d" +:+ dieText d +:+ modifierText m.

(** The grammar's argument of a modifier: digits, and for reroll,
    count-twice and explode an optional sign before them. *)
Definition wellFormedArg (k : ModKind) (argText : string) : Prop :=
  Js.allDigits argText = true
  ∨ ((k = Reroll ∨ k = Twice ∨ k = Explode)
     ∧ ∃ c ds, argText = String c ds ∧ Js.isSign c = true
               ∧ Js.allDigits ds = true).

(** The argument a written modifier compiles to: the default when no
    argument is written, the number written otherwise. *)
Definition resolvedArg (k : ModKind) (argText : string) (count : Z)
  (d : DieSpec) : Z :=
  if String.eqb argText "" then expectedDefault k count d
  else Js.toSafeInteger argText.

Definition compiledModifier (m : option (ModKind * string)) (count : Z)
  (d : DieSpec) : option (ModKind * Z) :=
  match m with
  | None => None
  | Some (k, argText) => Some (k, resolvedArg k argText count d)
  end.

(** What [parse] guarantees of each compiled chunk: a pool within the
    limits, with the offset of a Fudge die only on a three-faced die; a
    constant that is a valid chunk without a [d]. *)
Definition wellFormedPart (p : Part) : Prop :=
  match p with
  | RollPart r =>
      0 ≤ num r ≤ MAX_DICE
      ∧ 0 ≤ die r ≤ MAX_FACES
      ∧ (offset r = 0 ∨ (offset r = -2 ∧ die r = 3))
  | ConstPart chunk => validChunk chunk = true ∧ Js.contains "d" chunk = false
  end.

(** The positions of [s] at which the split pattern matches, [prev]
    being the character before [s]. *)
Fixpoint splitPoints (prev : option ascii) (s : string) : nat :=
  match s with
  | EmptyString => O
  | String c r =>
      ((if splitsBefore prev c then 1 else 0) + splitPoints (Some c) r)%nat
  end.

(** The last character of the string [String b t]. *)
Fixpoint lastChar (b : ascii) (t : string) : ascii :=
  match t with
  | EmptyString => b
  | String c r => lastChar c r
  end.

(** The chunk is a pool with the explode modifier. *)
Definition usesExplode (p : Part) : bool :=
  match p with
  | RollPart r =>
      match applyModifier r with
      | Some (Explode, _) => true
      | _ => false
      end
  | ConstPart _ => false
  end.

(** The value of an optionally signed run of digits. *)
Definition signedValue (sign ds : string) : Z :=
  if String.eqb sign "-" then - Js.decimal 0 ds else Js.decimal 0 ds.

(** * Properties *)

(** ** Strings *)

Lemma append_nil_l (s : string) : "" +:+ s = s.
Proof. reflexivity. Qed.

Lemma append_cons (c : ascii) (a b : string) :
  String c a +:+ b = String c (a +:+ b).
Proof. reflexivity. Qed.

Lemma append_empty_r (s : string) : s +:+ "" = s.
Proof.
  induction s as [|c s IH]; [done|]. by rewrite append_cons, IH.
Qed.

Lemma append_assoc (a b c : string) : (a +:+ b) +:+ c = a +:+ (b +:+ c).
Proof.
  induction a as [|x a IH]; [done|]. by rewrite !append_cons, IH.
Qed.

(** ** The chunk splitter *)

Lemma chunkFrom_join (s : string) :
  ∀ prev cur, joinChunks (chunkFrom prev cur s) = cur +:+ s.
Proof.
  induction s as [|c r IH]; intros prev cur; simpl.
  - done.
  - destruct (splitsBefore prev c && negb (String.eqb cur "")).
    + unfold joinChunks; simpl. fold (joinChunks (chunkFrom (Some c) (String c "") r)).
      by rewrite IH.
    + by rewrite IH, append_assoc.
Qed.

(** C10: concatenating the chunks of any string, in order, gives the
    string back, and the signed argument of [dfr-1] starts no chunk. *)
Theorem chunk_join_roundtrip :
  (∀ str : string, joinChunks (chunk str) = str)
  ∧ chunk "dfr-1" = ["dfr-1"]
  ∧ chunk "3d6+1-2d2+4dfr-1" = ["3d6"; "+1"; "-2d2"; "+4dfr-1"].
Proof.
  split; [|split; reflexivity].
  intros str. unfold chunk. by rewrite chunkFrom_join.
Qed.

(** ** Sorting, taking and dropping *)

Section Sorting.

#[local] Instance asc_total : Total (ordersBefore asc).
Proof. intros a b. unfold ordersBefore, asc. lia. Qed.

#[local] Instance desc_total : Total (ordersBefore desc).
Proof. intros a b. unfold ordersBefore, desc. lia. Qed.

#[local] Instance asc_trans : Transitive (ordersBefore asc).
Proof. intros a b c. unfold ordersBefore, asc. lia. Qed.

#[local] Instance desc_trans : Transitive (ordersBefore desc).
Proof. intros a b c. unfold ordersBefore, desc. lia. Qed.

#[local] Instance asc_antisymm : AntiSymm (=) (ordersBefore asc).
Proof. intros a b. unfold ordersBefore, asc. lia. Qed.

#[local] Instance desc_antisymm : AntiSymm (=) (ordersBefore desc).
Proof. intros a b. unfold ordersBefore, desc. lia. Qed.

Lemma Sorted_weaken {A} (R R' : relation A) (l : list A) :
  (∀ a b, R a b → R' a b) → Sorted R l → Sorted R' l.
Proof.
  intros HR. induction 1 as [|a l _ IH Hhd]; constructor; [done|].
  destruct Hhd; constructor; auto.
Qed.

Lemma jsSort_perm cmp (l : list Z) : jsSort cmp l ≡ₚ l.
Proof. apply merge_sort_Permutation. Qed.

Lemma jsSort_length cmp (l : list Z) : length (jsSort cmp l) = length l.
Proof. apply Permutation_length, jsSort_perm. Qed.

Lemma jsSort_asc_sorted (l : list Z) : Sorted Z.le (jsSort asc l).
Proof.
  apply (Sorted_weaken (ordersBefore asc)).
  - unfold ordersBefore, asc. intros; lia.
  - apply Sorted_merge_sort, _.
Qed.

Lemma jsSort_desc_sorted (l : list Z) : Sorted Z.ge (jsSort desc l).
Proof.
  apply (Sorted_weaken (ordersBefore desc)).
  - unfold ordersBefore, desc. intros; lia.
  - apply Sorted_merge_sort, _.
Qed.

(** A sorted array is what sorting any rearrangement of it gives. *)
Lemma jsSort_asc_unique (l k : list Z) :
  Sorted Z.le k → k ≡ₚ l → jsSort asc l = k.
Proof.
  intros Hk Hp. apply (Sorted_unique (ordersBefore asc)).
  - apply Sorted_merge_sort, _.
  - apply (Sorted_weaken Z.le); [|done].
    unfold ordersBefore, asc. intros; lia.
  - by rewrite jsSort_perm.
Qed.

Lemma jsSort_desc_unique (l k : list Z) :
  Sorted Z.ge k → k ≡ₚ l → jsSort desc l = k.
Proof.
  intros Hk Hp. apply (Sorted_unique (ordersBefore desc)).
  - apply Sorted_merge_sort, _.
  - apply (Sorted_weaken Z.ge); [|done].
    unfold ordersBefore, desc. intros; lia.
  - by rewrite jsSort_perm.
Qed.

(** Ascending order is descending order read backwards. *)
Lemma jsSort_asc_reverse (l : list Z) :
  jsSort asc l = reverse (jsSort desc l).
Proof.
  apply jsSort_asc_unique.
  - apply (Sorted_weaken (flip Z.ge)); [intros a b; simpl; lia|].
    apply Sorted_reverse, jsSort_desc_sorted.
  - by rewrite reverse_Permutation, jsSort_perm.
Qed.

Lemma jsSort_desc_reverse (l : list Z) :
  jsSort desc l = reverse (jsSort asc l).
Proof. by rewrite jsSort_asc_reverse, reverse_involutive. Qed.

Lemma takeWhileFrom_index (arg : Z) (l : list Z) :
  ∀ i, takeWhileFrom i (λ _ j, j <? arg) l = take (Z.to_nat (arg - i)) l.
Proof.
  induction l as [|v r IH]; intros i; simpl.
  - by rewrite take_nil.
  - destruct (Z.ltb_spec i arg) as [Hlt|Hge].
    + rewrite IH. replace (Z.to_nat (arg - i)) with (S (Z.to_nat (arg - (i + 1)))) by lia.
      done.
    + by replace (Z.to_nat (arg - i)) with O by lia.
Qed.

Lemma dropWhileFrom_index (arg : Z) (l : list Z) :
  ∀ i, dropWhileFrom i (λ _ j, j <? arg) l = drop (Z.to_nat (arg - i)) l.
Proof.
  induction l as [|v r IH]; intros i; simpl.
  - by rewrite drop_nil.
  - destruct (Z.ltb_spec i arg) as [Hlt|Hge].
    + rewrite IH. replace (Z.to_nat (arg - i)) with (S (Z.to_nat (arg - (i + 1)))) by lia.
      done.
    + by replace (Z.to_nat (arg - i)) with O by lia.
Qed.

(** Keeping while the index is below [arg] keeps the first [arg]. *)
Lemma takeWhile_index (arg : Z) (l : list Z) :
  takeWhile l (λ _ i, i <? arg) = take (Z.to_nat arg) l.
Proof. unfold takeWhile. by rewrite takeWhileFrom_index, Z.sub_0_r. Qed.

Lemma dropWhile_index (arg : Z) (l : list Z) :
  dropWhile l (λ _ i, i <? arg) = drop (Z.to_nat arg) l.
Proof. unfold dropWhile. by rewrite dropWhileFrom_index, Z.sub_0_r. Qed.

Lemma arraySort_lookup cmp rolls (σ : gmap Ref (list Z)) :
  arraySort cmp rolls σ !!! rolls = jsSort cmp (σ !!! rolls).
Proof. unfold arraySort. by rewrite lookup_total_insert_eq. Qed.

Lemma arraySort_other cmp rolls r (σ : gmap Ref (list Z)) :
  r ≠ rolls → arraySort cmp rolls σ !! r = σ !! r.
Proof. intros Hne. unfold arraySort. by rewrite lookup_insert_ne. Qed.

(** The arrays the four modifiers return, from the array they are given. *)
Lemma keepHighest_result arg rolls (σ : gmap Ref (list Z)) :
  (keepHighest arg rolls σ).1 = take (Z.to_nat arg) (jsSort desc (σ !!! rolls)).
Proof. unfold keepHighest; simpl. by rewrite takeWhile_index, arraySort_lookup. Qed.

Lemma keepLowest_result arg rolls (σ : gmap Ref (list Z)) :
  (keepLowest arg rolls σ).1 = take (Z.to_nat arg) (jsSort asc (σ !!! rolls)).
Proof. unfold keepLowest; simpl. by rewrite takeWhile_index, arraySort_lookup. Qed.

Lemma dropLowest_result arg rolls (σ : gmap Ref (list Z)) :
  (dropLowest arg rolls σ).1 = drop (Z.to_nat arg) (jsSort asc (σ !!! rolls)).
Proof. unfold dropLowest; simpl. by rewrite dropWhile_index, arraySort_lookup. Qed.

Lemma dropHighest_result arg rolls (σ : gmap Ref (list Z)) :
  (dropHighest arg rolls σ).1 = drop (Z.to_nat arg) (jsSort desc (σ !!! rolls)).
Proof. unfold dropHighest; simpl. by rewrite dropWhile_index, arraySort_lookup. Qed.

(** On an array of its own a modifier returns what it returns on any
    array with the same contents. *)
Lemma onFreshArray_keepHighest arg (rolls : list Z) :
  onFreshArray (keepHighest arg) rolls = take (Z.to_nat arg) (jsSort desc rolls).
Proof.
  unfold onFreshArray. by rewrite keepHighest_result, lookup_total_singleton_eq.
Qed.

Lemma onFreshArray_keepLowest arg (rolls : list Z) :
  onFreshArray (keepLowest arg) rolls = take (Z.to_nat arg) (jsSort asc rolls).
Proof.
  unfold onFreshArray. by rewrite keepLowest_result, lookup_total_singleton_eq.
Qed.

Lemma onFreshArray_dropLowest arg (rolls : list Z) :
  onFreshArray (dropLowest arg) rolls = drop (Z.to_nat arg) (jsSort asc rolls).
Proof.
  unfold onFreshArray. by rewrite dropLowest_result, lookup_total_singleton_eq.
Qed.

Lemma onFreshArray_dropHighest arg (rolls : list Z) :
  onFreshArray (dropHighest arg) rolls = drop (Z.to_nat arg) (jsSort desc rolls).
Proof.
  unfold onFreshArray. by rewrite dropHighest_result, lookup_total_singleton_eq.
Qed.

(** Dropping all but the last [n] of a reversed array gives the first [n]
    of the array, reversed. *)
Lemma drop_reverse_take (n : nat) (l : list Z) :
  (n ≤ length l)%nat → drop (length l - n) (reverse l) = reverse (take n l).
Proof.
  intros Hn. rewrite drop_reverse. do 2 f_equal. lia.
Qed.

End Sorting.

(** ** Keep and drop *)

(** C6, as the code has it: keep-highest and keep-lowest sort the
    caller's own array.  After the call it holds the elements it held
    before, in descending (ascending) order; the returned array is its
    first [arg] elements; every other array is untouched; and the
    caller's array reads as before exactly when it was already in that
    order. *)
Theorem keep_sorts_in_place (arg : Z) (rolls : Ref) (σ : gmap Ref (list Z)) :
  ((keepHighest arg rolls σ).2 !!! rolls ≡ₚ σ !!! rolls
   ∧ Sorted Z.ge ((keepHighest arg rolls σ).2 !!! rolls)
   ∧ (keepHighest arg rolls σ).1
     = take (Z.to_nat arg) ((keepHighest arg rolls σ).2 !!! rolls)
   ∧ (∀ r, r ≠ rolls → (keepHighest arg rolls σ).2 !! r = σ !! r)
   ∧ ((keepHighest arg rolls σ).2 !!! rolls = σ !!! rolls
      ↔ Sorted Z.ge (σ !!! rolls)))
  ∧ ((keepLowest arg rolls σ).2 !!! rolls ≡ₚ σ !!! rolls
     ∧ Sorted Z.le ((keepLowest arg rolls σ).2 !!! rolls)
     ∧ (keepLowest arg rolls σ).1
       = take (Z.to_nat arg) ((keepLowest arg rolls σ).2 !!! rolls)
     ∧ (∀ r, r ≠ rolls → (keepLowest arg rolls σ).2 !! r = σ !! r)
     ∧ ((keepLowest arg rolls σ).2 !!! rolls = σ !!! rolls
        ↔ Sorted Z.le (σ !!! rolls))).
Proof.
  split.
  - rewrite keepHighest_result. unfold keepHighest; simpl.
    rewrite arraySort_lookup. repeat split.
    + apply jsSort_perm.
    + apply jsSort_desc_sorted.
    + intros r Hr. by apply arraySort_other.
    + intros <-. apply jsSort_desc_sorted.
    + intros Hs. by apply jsSort_desc_unique.
  - rewrite keepLowest_result. unfold keepLowest; simpl.
    rewrite arraySort_lookup. repeat split.
    + apply jsSort_perm.
    + apply jsSort_asc_sorted.
    + intros r Hr. by apply arraySort_other.
    + intros <-. apply jsSort_asc_sorted.
    + intros Hs. by apply jsSort_asc_unique.
Qed.

(** C6, as the claim has it, fails: after keep-highest(3) on
    [6,5,1,1,2,3,4] the caller's array reads [6,5,4,3,2,1,1], and after
    keep-lowest(3) it reads [1,1,2,3,4,5,6]. *)
Lemma keep_reorders_input :
  ({[ 1%positive := [6; 5; 1; 1; 2; 3; 4] ]} : gmap Ref (list Z)) !! 1%positive
    = Some [6; 5; 1; 1; 2; 3; 4]
  ∧ keepHighest 3 1%positive {[ 1%positive := [6; 5; 1; 1; 2; 3; 4] ]}
    = ([6; 5; 4], {[ 1%positive := [6; 5; 4; 3; 2; 1; 1] ]})
  ∧ keepLowest 3 1%positive {[ 1%positive := [6; 5; 1; 1; 2; 3; 4] ]}
    = ([1; 1; 2], {[ 1%positive := [1; 1; 2; 3; 4; 5; 6] ]}).
Proof. repeat split; vm_compute; reflexivity. Qed.

(** C8: on an array of [count] rolls and for [0 <= N <= count],
    keep-highest(N) and drop-lowest(count - N) return the same rolls up
    to order, and so do keep-lowest(N) and drop-highest(count - N);
    this holds from the same starting array and also when the second
    modifier runs on the array the first has already sorted. *)
Theorem keep_drop_complement (N : Z) (rolls : Ref) (σ : gmap Ref (list Z)) :
  0 ≤ N ≤ Z.of_nat (length (σ !!! rolls)) →
  (keepHighest N rolls σ).1
    ≡ₚ (dropLowest (Z.of_nat (length (σ !!! rolls)) - N) rolls σ).1
  ∧ (keepLowest N rolls σ).1
    ≡ₚ (dropHighest (Z.of_nat (length (σ !!! rolls)) - N) rolls σ).1
  ∧ (keepHighest N rolls σ).1
    ≡ₚ (dropLowest (Z.of_nat (length (σ !!! rolls)) - N) rolls
          (keepHighest N rolls σ).2).1
  ∧ (keepLowest N rolls σ).1
    ≡ₚ (dropHighest (Z.of_nat (length (σ !!! rolls)) - N) rolls
          (keepLowest N rolls σ).2).1.
Proof.
  intros HN.
  set (l := σ !!! rolls) in *.
  assert (Hn : (Z.to_nat N ≤ length l)%nat) by lia.
  assert (Hc : Z.to_nat (Z.of_nat (length l) - N)
               = (length l - Z.to_nat N)%nat) by lia.
  assert (HA : drop (Z.to_nat (Z.of_nat (length l) - N)) (jsSort asc l)
               = reverse (take (Z.to_nat N) (jsSort desc l))).
  { rewrite Hc, jsSort_asc_reverse, <- (jsSort_length desc l).
    apply drop_reverse_take. by rewrite jsSort_length. }
  assert (HD : drop (Z.to_nat (Z.of_nat (length l) - N)) (jsSort desc l)
               = reverse (take (Z.to_nat N) (jsSort asc l))).
  { rewrite Hc, jsSort_desc_reverse, <- (jsSort_length asc l).
    apply drop_reverse_take. by rewrite jsSort_length. }
  rewrite !keepHighest_result, !keepLowest_result,
    !dropLowest_result, !dropHighest_result.
  unfold keepHighest, keepLowest; simpl.
  rewrite !arraySort_lookup. fold l.
  rewrite (jsSort_asc_unique (jsSort desc l) (jsSort asc l))
    by (apply jsSort_asc_sorted || by rewrite !jsSort_perm).
  rewrite (jsSort_desc_unique (jsSort asc l) (jsSort desc l))
    by (apply jsSort_desc_sorted || by rewrite !jsSort_perm).
  rewrite HA, HD.
  repeat split; by rewrite reverse_Permutation.
Qed.

Lemma keep_drop_complement_witness :
  (keepHighest 3 1%positive {[ 1%positive := [6; 5; 1; 1; 2; 3; 4] ]}).1
    ≡ₚ (dropLowest
          (Z.of_nat (length (({[ 1%positive := [6; 5; 1; 1; 2; 3; 4] ]}
                              : gmap Ref (list Z)) !!! 1%positive)) - 3)
          1%positive {[ 1%positive := [6; 5; 1; 1; 2; 3; 4] ]}).1
  ∧ (keepLowest 3 1%positive {[ 1%positive := [6; 5; 1; 1; 2; 3; 4] ]}).1
    ≡ₚ (dropHighest
          (Z.of_nat (length (({[ 1%positive := [6; 5; 1; 1; 2; 3; 4] ]}
                              : gmap Ref (list Z)) !!! 1%positive)) - 3)
          1%positive {[ 1%positive := [6; 5; 1; 1; 2; 3; 4] ]}).1
  ∧ (keepHighest 3 1%positive {[ 1%positive := [6; 5; 1; 1; 2; 3; 4] ]}).1
    ≡ₚ (dropLowest
          (Z.of_nat (length (({[ 1%positive := [6; 5; 1; 1; 2; 3; 4] ]}
                              : gmap Ref (list Z)) !!! 1%positive)) - 3)
          1%positive
          (keepHighest 3 1%positive
             {[ 1%positive := [6; 5; 1; 1; 2; 3; 4] ]}).2).1
  ∧ (keepLowest 3 1%positive {[ 1%positive := [6; 5; 1; 1; 2; 3; 4] ]}).1
    ≡ₚ (dropHighest
          (Z.of_nat (length (({[ 1%positive := [6; 5; 1; 1; 2; 3; 4] ]}
                              : gmap Ref (list Z)) !!! 1%positive)) - 3)
          1%positive
          (keepLowest 3 1%positive
             {[ 1%positive := [6; 5; 1; 1; 2; 3; 4] ]}).2).1.
Proof.
  apply (keep_drop_complement 3 1%positive
           {[ 1%positive := [6; 5; 1; 1; 2; 3; 4] ]}).
  rewrite lookup_total_singleton_eq. simpl. lia.
Defined.

(** ** Explode *)

Section Explode.

Context {Rand : Type}.
Implicit Types (roller : Roller (Rand := Rand)) (g : Rand).

(** A pass never shortens the array, and read through [unmark] the array
    before the pass is found, in order, inside the array after it. *)
Lemma explodePass_grows arg roller (cells : list Cell) :
  ∀ g, (length cells ≤ length (explodePass arg roller cells g).1)%nat
       ∧ map (unmark arg) cells
           `sublist_of` map (unmark arg) (explodePass arg roller cells g).1.
Proof.
  induction cells as [|c cs IH]; intros g; simpl.
  - split; [lia | constructor].
  - destruct (isArg arg c) eqn:Hc.
    + destruct (roller g) as [v g1].
      specialize (IH g1).
      destruct (explodePass arg roller cs g1) as [out g2]; simpl in *.
      destruct c as [z|]; [|done]. simpl in Hc.
      apply Z.eqb_eq in Hc as ->. simpl.
      split; [lia|]. apply sublist_skip, sublist_cons, IH.
    + specialize (IH g).
      destruct (explodePass arg roller cs g) as [out g2]; simpl in *.
      split; [lia|]. apply sublist_skip, IH.
Qed.

Lemma unmark_Num arg (rolls : list Z) :
  map (unmark arg) (map Num rolls) = rolls.
Proof. induction rolls as [|r rs IH]; simpl; [done | by rewrite IH]. Qed.

(** The loop returns once the fuel exceeds [sentinel]: every pass takes
    one from it, and no pass starts unless it is positive. *)
Lemma explodeLoop_returns arg roller (fuel : nat) :
  ∀ sentinel cells g,
    (Z.to_nat sentinel < fuel)%nat →
    ∃ s' cells' g',
      explodeLoop fuel arg roller sentinel cells g = Some (s', cells', g')
      ∧ (length cells ≤ length cells')%nat
      ∧ map (unmark arg) cells `sublist_of` map (unmark arg) cells'.
Proof.
  induction fuel as [|fuel IH]; intros sentinel cells g Hf; [lia|].
  simpl. destruct (Z.ltb_spec 0 sentinel) as [Hpos|Hneg]; simpl.
  - destruct (existsb (isArg arg) cells).
    + pose proof (explodePass_grows arg roller cells g) as [Hlen Hsub].
      destruct (explodePass arg roller cells g) as [cells1 g1]; simpl in *.
      destruct (IH (sentinel - 1) cells1 g1) as (s' & cells' & g' & He & Hl & Hs);
        [lia|].
      exists s', cells', g'. split; [done|]. split; [lia|].
      by etrans.
    + by exists (sentinel - 1), cells, g.
  - by exists (sentinel - 1), cells, g.
Qed.

(** More fuel does not change a result already reached. *)
Lemma explodeLoop_fuel_mono arg roller (fuel : nat) :
  ∀ fuel' sentinel cells g r,
    explodeLoop fuel arg roller sentinel cells g = Some r →
    (fuel ≤ fuel')%nat →
    explodeLoop fuel' arg roller sentinel cells g = Some r.
Proof.
  induction fuel as [|fuel IH]; intros fuel' sentinel cells g r He Hle;
    [done|].
  destruct fuel' as [|fuel']; [lia|]. simpl in *.
  destruct ((0 <? sentinel) && existsb (isArg arg) cells); [|done].
  destruct (explodePass arg roller cells g) as [cells1 g1].
  apply IH; [done | lia].
Qed.

Lemma explode_returns arg roller (rolls : list Z) g (fuel : nat) :
  (Z.to_nat (MAX_DICE - Z.of_nat (length rolls)) < fuel)%nat →
  explode fuel arg roller rolls g = Raise RollLimitExceededError
  ∨ ∃ out g', explode fuel arg roller rolls g = Done (out, g')
              ∧ (length rolls ≤ length out)%nat
              ∧ rolls `sublist_of` out.
Proof.
  intros Hf. unfold explode.
  destruct (explodeLoop_returns arg roller fuel _ (map Num rolls) g Hf)
    as (s' & cells' & g' & -> & Hl & Hs).
  destruct (s' <? 0); [by left|]. right.
  exists (map (unmark arg) cells'), g'. split; [done|].
  rewrite !length_map in *. split; [done|].
  by rewrite unmark_Num in Hs.
Qed.

(** Whatever explode returns holds the input rolls, in their order. *)
Lemma explode_keeps_input arg roller (rolls : list Z) g (fuel : nat) out g' :
  explode fuel arg roller rolls g = Done (out, g') → rolls `sublist_of` out.
Proof.
  intros He.
  set (big := (fuel + S (Z.to_nat (MAX_DICE - Z.of_nat (length rolls))))%nat).
  assert (Hbig : explode big arg roller rolls g = Done (out, g')).
  { unfold explode in *.
    destruct (explodeLoop fuel arg roller _ (map Num rolls) g) as [r|] eqn:Hr;
      [|done].
    by rewrite (explodeLoop_fuel_mono _ _ fuel big _ _ _ r Hr) by (unfold big; lia). }
  destruct (explode_returns arg roller rolls g big) as [Hraise|(o & g1 & Ho & _ & Hs)];
    [unfold big; lia | congruence |].
  rewrite Hbig in Ho. by simplify_eq.
Qed.

End Explode.

(** C7: explode terminates.  At most 101 evaluations of the loop
    condition are needed, whatever the reroll function returns; after them
    explode has either raised RollLimitExceeded or returned a list at
    least as long as its input. *)
Theorem explode_terminates {Rand : Type} (arg : Z) (roller : Roller)
  (rolls : list Z) (g : Rand) :
  ∃ fuel : nat, (fuel ≤ 101)%nat ∧
    ∀ fuel' : nat, (fuel ≤ fuel')%nat →
      explode fuel' arg roller rolls g = Raise RollLimitExceededError
      ∨ ∃ out g', explode fuel' arg roller rolls g = Done (out, g')
                  ∧ (length rolls ≤ length out)%nat.
Proof.
  exists (S (Z.to_nat (MAX_DICE - Z.of_nat (length rolls)))).
  split; [unfold MAX_DICE; lia|].
  intros fuel' Hf.
  destruct (explode_returns arg roller rolls g fuel') as [H|(out & g' & H & Hl & _)];
    [lia | by left | right; eauto].
Qed.

(** A die that always shows the explode target: the loop stops at the
    bound and raises. *)
Example explode_forever_raises :
  explode 101 6 (λ g : unit, (6, g)) [6] tt = Raise RollLimitExceededError.
Proof. vm_compute. reflexivity. Qed.

(** Any pool of 100 dice or more makes explode raise at once, whether or
    not a die shows the target: the loop condition takes one from a
    [sentinel] that is already at or below zero. *)
Lemma explode_full_pool {Rand : Type} (arg : Z) (roller : Roller)
  (rolls : list Z) (g : Rand) (fuel : nat) :
  MAX_DICE ≤ Z.of_nat (length rolls) →
  explode (S fuel) arg roller rolls g = Raise RollLimitExceededError.
Proof.
  intros Hlen. unfold explode; simpl.
  destruct (Z.ltb_spec 0 (MAX_DICE - Z.of_nat (length rolls))) as [H|H];
    [lia|]. simpl.
  destruct (Z.ltb_spec (MAX_DICE - Z.of_nat (length rolls) - 1) 0); [done | lia].
Qed.

(** C5: [4d10!] against the die(10) outputs 7, 10, 5, 4, 10, 3 gives the
    pool [7, 10, 10, 3, 5, 4]: the 10 of the first roll stays where it
    was, each die rolled for a 10 sits right after it, and the second 10,
    itself newly rolled, explodes in turn.  In general the rolls explode
    was given are all found, in their order, in what it returns. *)
Theorem explode_scenario :
  parse "4d10!" = Ok [RollPart (mkRoll false 4 10 0 (Some (Explode, 10)))]
  ∧ (∀ k : nat,
       evaluator scripted (3 + k)
         [RollPart (mkRoll false 4 10 0 (Some (Explode, 10)))] false
         [(10, [7; 10; 5; 4; 10; 3])]
       = Done (Unreduced [Pool [7; 10; 10; 3; 5; 4]], [(10, [])]))
  ∧ (∀ (Rand : Type) (arg : Z) (roller : Roller) (rolls : list Z)
       (g : Rand) (fuel : nat) (out : list Z) (g' : Rand),
       explode fuel arg roller rolls g = Done (out, g') →
       rolls `sublist_of` out).
Proof.
  split; [vm_compute; reflexivity|]. split.
  - intros k. vm_compute. reflexivity.
  - intros. by eapply explode_keeps_input.
Qed.

(** ** The evaluator *)

Section Evaluator.

Context {Rand : Type} (random_die : Z → Rand → Z * Rand).

(** The unreduced result is what the chunk functions returned. *)
Lemma evaluator_unreduced fuel parts g vs g' :
  roll random_die fuel parts g = Done (vs, g') →
  evaluator random_die fuel parts false g = Done (Unreduced vs, g').
Proof. intros Hr. unfold evaluator. by rewrite Hr. Qed.


(** With nothing to add, [reduce] has no accumulator to start from. *)
Lemma evaluator_reduced_empty fuel parts g vs g' :
  roll random_die fuel parts g = Done (vs, g') →
  flat vs = [] →
  evaluator random_die fuel parts true g = Raise TypeError.
Proof. intros Hr He. unfold evaluator. rewrite Hr. simpl. by rewrite He. Qed.

(** One entry per chunk: the converted text for a constant, an array for
    a dice pool. *)
Lemma roll_shape fuel parts :
  ∀ g vs g',
    roll random_die fuel parts g = Done (vs, g') →
    Forall2 (λ p v,
               match p, v with
               | ConstPart chunk, Scalar z => z = Js.toSafeInteger chunk
               | RollPart _, Pool _ => True
               | _, _ => False
               end) parts vs.
Proof.
  induction parts as [|p ps IH]; intros g vs g' Hr; simpl in Hr.
  - simplify_eq. constructor.
  - destruct (runPart random_die fuel p g) as [[v g1]| |] eqn:Hp;
      simpl in Hr; try done.
    destruct (roll random_die fuel ps g1) as [[vs1 g2]| |] eqn:Hps;
      simpl in Hr; try done.
    simplify_eq. constructor; [|by eapply IH].
    destruct p as [c|r]; simpl in Hp.
    + by simplify_eq.
    + destruct (runRoll random_die fuel r g) as [[o g3]| |]; simpl in Hp;
        by simplify_eq.
Qed.

(** A pool of one die with drop-lowest(1) or drop-highest(1) is always
    empty. *)
Lemma roll_single_die_dropped fuel (neg : bool) (faces : Z) (k : ModKind) g :
  k = DropLowest ∨ k = DropHighest →
  ∃ g', roll random_die fuel
          [RollPart (mkRoll neg 1 faces 0 (Some (k, 1)))] g
        = Done ([Pool []], g').
Proof.
  intros Hk. simpl. unfold runRoll, rollDice; simpl.
  unfold rollOne. destruct (random_die faces g) as [v g1]; simpl.
  exists g1. destruct Hk as [-> | ->], neg; reflexivity.
Qed.

End Evaluator.

(** [rollDice(num)()] returns [num] rolls. *)
Lemma rollMany_length {Rand : Type} (random_die : Z → Rand → Z * Rand)
  (faces off : Z) (n : nat) :
  ∀ g, length (rollMany random_die faces off n g).1 = n.
Proof.
  induction n as [|n IH]; intros g; simpl; [done|].
  unfold rollOne. destruct (random_die faces g) as [v g1].
  specialize (IH g1).
  destruct (rollMany random_die faces off n g1) as [rest g2]; simpl in *.
  by rewrite IH.
Qed.

(** C1, the code at its inputs.  [100d6!] compiles, and evaluating it
    raises RollLimitExceeded whatever the dice show, also when none shows
    the target 6.  So does explode on 100 rolls of 1, and on 98 rolls of 1
    and one 6 whose reroll shows 2, where 100 dice are rolled in all and
    no match is left.  A pool of 60 sixes whose rerolls all show 2 returns
    120 dice and raises nothing. *)
Theorem explode_limit_at_inputs :
  parse "100d6!" = Ok [RollPart (mkRoll false 100 6 0 (Some (Explode, 6)))]
  ∧ (∀ (Rand : Type) (random_die : Z → Rand → Z * Rand) (g : Rand)
       (fuel : nat) (reduce : bool),
       evaluator random_die (S fuel)
         [RollPart (mkRoll false 100 6 0 (Some (Explode, 6)))] reduce g
       = Raise RollLimitExceededError)
  ∧ (∀ (Rand : Type) (roller : Roller) (g : Rand) (fuel : nat),
       existsb (isArg 6) (map Num (replicate 100 1)) = false
       ∧ explode (S fuel) 6 roller (replicate 100 1) g
         = Raise RollLimitExceededError)
  ∧ explode 101 6 (λ g : unit, (2, g)) (replicate 98 1 ++ [6]) tt
    = Raise RollLimitExceededError
  ∧ (∃ out, explode 101 6 (λ g : unit, (2, g)) (replicate 60 6) tt
            = Done (out, tt)
            ∧ length out = 120%nat).
Proof.
  split; [reflexivity|]. split; [|split; [|split]].
  - intros Rand random_die g fuel reduce.
    unfold evaluator, roll, runPart, runRoll, rollDice.
    cbn [die offset num negative applyModifier].
    pose proof (rollMany_length random_die 6 0 (Z.to_nat 100) g) as Hlen.
    destruct (rollMany random_die 6 0 (Z.to_nat 100) g) as [rolls g1].
    unfold runModifier. cbn [die offset num negative applyModifier].
    rewrite explode_full_pool; [done|].
    simpl in Hlen. rewrite Hlen. vm_compute. discriminate.
  - intros Rand roller g fuel. split; [reflexivity|].
    apply explode_full_pool. vm_compute. discriminate.
  - vm_compute. reflexivity.
  - eexists. split; [vm_compute; reflexivity | reflexivity].
Qed.

(** C9: when the chunks of a compiled expression return no value at all,
    the evaluator called with [reduce = true] returns no integer: it
    raises TypeError, which is none of the documented error kinds. *)
Theorem reduce_without_values_fails {Rand : Type}
  (random_die : Z → Rand → Z * Rand) (expr : string) (parts : list Part)
  (fuel : nat) (g g' : Rand) (vs : list PartValue) :
  parse expr = Ok parts →
  roll random_die fuel parts g = Done (vs, g') →
  flat vs = [] →
  evaluator random_die fuel parts true g = Raise TypeError
  ∧ documented TypeError = false.
Proof.
  intros _ Hr He. split; [|done]. by eapply evaluator_reduced_empty.
Qed.

Lemma reduce_without_values_fails_witness :
  parse "1d6dl1" = Ok [RollPart (mkRoll false 1 6 0 (Some (DropLowest, 1)))]
  ∧ roll scripted 0 [RollPart (mkRoll false 1 6 0 (Some (DropLowest, 1)))]
      [(6, [4])]
    = Done ([Pool []], [(6, [])])
  ∧ evaluator scripted 0
      [RollPart (mkRoll false 1 6 0 (Some (DropLowest, 1)))] true [(6, [4])]
    = Raise TypeError
  ∧ documented TypeError = false.
Proof.
  split; [reflexivity|]. split; [reflexivity|].
  apply (reduce_without_values_fails scripted "1d6dl1"
           [RollPart (mkRoll false 1 6 0 (Some (DropLowest, 1)))]
           0%nat [(6, [4])] [(6, [])] [Pool []]); reflexivity.
Defined.

(** The expression [1d6dl1] fails in this way whatever the die shows. *)
Lemma one_die_drop_lowest_fails {Rand : Type}
  (random_die : Z → Rand → Z * Rand) (fuel : nat) (g : Rand) :
  parse "1d6dl1" = Ok [RollPart (mkRoll false 1 6 0 (Some (DropLowest, 1)))]
  ∧ evaluator random_die fuel
      [RollPart (mkRoll false 1 6 0 (Some (DropLowest, 1)))] true g
    = Raise TypeError.
Proof.
  split; [reflexivity|].
  destruct (roll_single_die_dropped random_die fuel false 6 DropLowest g)
    as [g' Hr]; [by left|].
  by eapply evaluator_reduced_empty.
Qed.

(** C4, the code at [1d1dl1], which the test-suite lists as an expression
    that always rolls 0: the unreduced result is one empty pool, whose
    flattened sum is 0, and the reduced call raises TypeError. *)
Theorem reduce_fails_where_unreduced_sums_to_zero :
  parse "1d1dl1" = Ok [RollPart (mkRoll false 1 1 0 (Some (DropLowest, 1)))]
  ∧ ∀ (Rand : Type) (random_die : Z → Rand → Z * Rand) (fuel : nat)
      (g : Rand),
      (∃ g', evaluator random_die fuel
               [RollPart (mkRoll false 1 1 0 (Some (DropLowest, 1)))] false g
             = Done (Unreduced [Pool []], g'))
      ∧ fold_left sum (flat [Pool []]) 0 = 0
      ∧ evaluator random_die fuel
          [RollPart (mkRoll false 1 1 0 (Some (DropLowest, 1)))] true g
        = Raise TypeError.
Proof.
  split; [reflexivity|]. intros Rand random_die fuel g.
  destruct (roll_single_die_dropped random_die fuel false 1 DropLowest g)
    as [g' Hr]; [by left|].
  split; [|split].
  - exists g'. by apply evaluator_unreduced.
  - reflexivity.
  - by eapply evaluator_reduced_empty.
Qed.

(** The scenario of the test-suite: [4d6+1-2d4+2] against die(6) outputs
    3, 2, 4, 1 and die(4) outputs 1, 3. *)
Example roll_scenario :
  ∃ parts,
    parse "4d6+1-2d4+2" = Ok parts
    ∧ evaluator scripted 0 parts true [(6, [3; 2; 4; 1]); (4, [1; 3])]
      = Done (Reduced 9, [(6, []); (4, [])])
    ∧ evaluator scripted 0 parts false [(6, [3; 2; 4; 1]); (4, [1; 3])]
      = Done (Unreduced [Pool [3; 2; 4; 1]; Scalar 1; Pool [-1; -3]; Scalar 2],
              [(6, []); (4, [])]).
Proof. eexists. repeat split; vm_compute; reflexivity. Qed.

(** ** The length limit *)

Lemma createModifier_throws modifier n hi lo e :
  createModifier modifier n hi lo = Throw e → e = TypeError.
Proof.
  unfold createModifier. intros H.
  destruct modifier as [m|]; [|done].
  destruct (matchFuncRest m) as [[func rest]|]; [|by simplify_eq].
  destruct (modifierFunctions (Js.toUpperCase func)); by simplify_eq.
Qed.

Lemma createRoll_throws chunk e :
  createRoll chunk = Throw e →
  e = TypeError ∨ e = TooManyDiceError ∨ e = DieTooBigError.
Proof.
  unfold createRoll. intros H.
  destruct (searchDiceChunk _) as [grp|]; [|left; by simplify_eq].
  destruct (_ >? MAX_DICE); [right; left; by simplify_eq|].
  destruct (_ >? MAX_FACES); [right; right; by simplify_eq|].
  destruct (createModifier _ _ _ _) as [m|e'] eqn:Hm; simpl in H; [done|].
  simplify_eq. left. by eapply createModifier_throws.
Qed.

Lemma createPart_throws chunk e :
  createPart chunk = Throw e →
  e = TypeError ∨ e = TooManyDiceError ∨ e = DieTooBigError.
Proof.
  unfold createPart, createConst. intros H.
  destruct (negb _); [done|].
  destruct (createRoll chunk) as [r|e'] eqn:Hr; simpl in H; [done|].
  simplify_eq. by eapply createRoll_throws.
Qed.

Lemma res_map_throws {A B} (f : A → Res B) (l : list A) e :
  res_map f l = Throw e → ∃ x, x ∈ l ∧ f x = Throw e.
Proof.
  induction l as [|x xs IH]; simpl; intros H; [done|].
  destruct (f x) as [y|e'] eqn:Hx; simpl in H.
  - destruct (res_map f xs) as [ys|e'']; simpl in H; [done|].
    simplify_eq. destruct IH as (x' & Hin & Hx'); [done|].
    exists x'. split; [by right | done].
  - simplify_eq. exists x. split; [by left | done].
Qed.

(** C2, as the code has it: the length that [parse] tests is that of the
    expression as passed, before spaces are removed and case is lowered.
    ExpressionTooLong is raised exactly when that length exceeds 60. *)
Theorem parse_too_long_iff_raw_length (expr : string) :
  parse expr = Throw ExpressionTooLongError ↔ Js.length expr > MAX_LENGTH.
Proof.
  unfold parse.
  destruct (Z.gtb_spec (Js.length expr) MAX_LENGTH) as [Hgt|Hle].
  - split; [lia | done].
  - split; [|lia]. intros H.
    destruct (_ >? MAX_CHUNKS); [done|].
    destruct (existsb isInvalidChunk _); [done|].
    destruct (res_map_throws _ _ _ H) as (c & _ & Hc).
    destruct (createPart_throws _ _ Hc) as [?|[?|?]]; done.
Qed.

(** C2, as the claim has it, fails: this expression is 61 characters
    long as written and 5 once normalised, and [parse] rejects it as too
    long; with one space fewer it compiles. *)
Lemma parse_rejects_padded :
  Js.length (normalize "2d4 +                                                       2") = 5
  ∧ Js.length "2d4 +                                                       2" = 61
  ∧ parse "2d4 +                                                       2" = Throw ExpressionTooLongError
  ∧ parse "2d4 +                                                      2"
    = Ok [RollPart (mkRoll false 2 4 0 None); ConstPart "+2"].
Proof. repeat split; vm_compute; reflexivity. Qed.

(** ** Default arguments *)


Lemma spanDigits_app (ds s : string) :
  Js.allDigits ds = true → startsWithDigit s = false →
  Js.spanDigits (ds +:+ s) = (ds, s).
Proof.
  intros Hd Hs. induction ds as [|c r IH].
  - rewrite append_nil_l. destruct s as [|c r]; [done|].
    simpl in *. by rewrite Hs.
  - simpl in Hd. apply andb_true_iff in Hd as [Hc Hr].
    rewrite append_cons. simpl. rewrite Hc, IH by done. done.
Qed.

Lemma digit_not_char (c x : ascii) :
  Js.isDigit c = true → Js.isDigit x = false → Ascii.eqb c x = false.
Proof.
  intros Hc Hx. destruct (Ascii.eqb_spec c x) as [->|]; [congruence | done].
Qed.

Lemma modToken_no_digit k : startsWithDigit (modToken k) = false.
Proof. by destruct k. Qed.

Lemma matchModifier_token k : matchModifier (modToken k) = Some (modToken k, "").
Proof. by destruct k. Qed.

Lemma matchFuncRest_token k : matchFuncRest (modToken k) = Some (modToken k, "").
Proof. by destruct k. Qed.


Lemma matchDie_built d k :
  wellFormedDie d →
  matchDie (dieText d +:+ modToken k) = Some (dieText d, modToken k).
Proof.
  intros Hd. destruct d as [| |ds]; [done | done |].
  destruct Hd as [Hne Hds]. simpl.
  destruct ds as [|c r]; [done|]. rewrite append_cons.
  unfold matchDie. simpl in Hds. apply andb_true_iff in Hds as [Hc Hr].
  rewrite !(digit_not_char c) by done. simpl.
  rewrite Hc, (spanDigits_app r) by (done || apply modToken_no_digit). done.
Qed.

Lemma matchDiceChunkAt_built numText d k :
  Js.allDigits numText = true → wellFormedDie d →
  matchDiceChunkAt (numText +:+ "d" +:+ dieText d +:+ modToken k)
  = Some (mkGroups numText (dieText d) (Some (modToken k)), "").
Proof.
  intros Hn Hd. unfold matchDiceChunkAt.
  rewrite spanDigits_app by done.
  rewrite append_cons, append_nil_l. simpl.
  rewrite matchDie_built by done. by rewrite matchModifier_token.
Qed.

Lemma searchDiceChunk_first s g r :
  matchDiceChunkAt s = Some (g, r) → searchDiceChunk s = Some g.
Proof.
  intros H. destruct s as [|c s]; [by vm_compute in H|].
  cbn [searchDiceChunk]. by rewrite H.
Qed.

Lemma searchDiceChunk_built numText d k :
  Js.allDigits numText = true → wellFormedDie d →
  searchDiceChunk (numText +:+ "d" +:+ dieText d +:+ modToken k)
  = Some (mkGroups numText (dieText d) (Some (modToken k))).
Proof.
  intros Hn Hd. eapply searchDiceChunk_first. by apply matchDiceChunkAt_built.
Qed.

Lemma startsWith_built numText rest (c : ascii) :
  Js.allDigits numText = true → Js.isDigit c = false →
  Ascii.eqb "d" c = false →
  Js.startsWith (numText +:+ "d" +:+ rest) c = false.
Proof.
  intros Hn Hc Hd. destruct numText as [|x r]; [done|].
  simpl in Hn. apply andb_true_iff in Hn as [Hx _].
  rewrite append_cons. simpl. by apply digit_not_char.
Qed.

Lemma length_zero_eqb (s : string) : (Js.length s =? 0) = String.eqb s "".
Proof. destruct s; [done|]. unfold Js.length. simpl. lia. Qed.

Lemma toUpperCase_digits (s : string) :
  Js.allDigits s = true → Js.toUpperCase s = s.
Proof.
  induction s as [|c r IH]; simpl; [done|]. intros H.
  apply andb_true_iff in H as [Hc Hr]. unfold Js.toUpperCase in *. simpl.
  rewrite IH by done. f_equal.
  unfold Js.upperChar, Js.isDigit in *.
  apply andb_true_iff in Hc as [_ H2]. apply N.leb_le in H2.
  destruct (N.leb_spec 97 (N_of_ascii c)); [lia | done].
Qed.

Lemma digits_eqb_char (s : string) (x : ascii) :
  Js.allDigits s = true → Js.isDigit x = false →
  String.eqb s (String x "") = false.
Proof.
  intros Hs Hx. destruct s as [|c r]; [done|]. simpl in *.
  apply andb_true_iff in Hs as [Hc _]. by rewrite (digit_not_char c x).
Qed.



Lemma createModifier_default k n hi lo :
  createModifier (Some (modToken k)) n hi lo
  = Ok (Some (k, match k with
                 | Reroll => hi
                 | Twice | Explode => lo
                 | _ => Z.min 1 (n - 1)
                 end)).
Proof. unfold createModifier. rewrite matchFuncRest_token. by destruct k. Qed.

Lemma createRoll_unsigned (negative : bool) numText d k :
  Js.allDigits numText = true → wellFormedDie d →
  (let rollExpr := numText +:+ "d" +:+ dieText d +:+ modToken k in
   match searchDiceChunk rollExpr with
  | None => Throw TypeError
  | Some g =>
      let num :=
        if Js.length (g_num g) =? 0 then 1 else Js.toSafeInteger (g_num g) in
      if num >? MAX_DICE then Throw TooManyDiceError
      else
        let die := Js.toUpperCase (g_die g) in
        let offset := if String.eqb die "F" then -2 else 0 in
        let die :=
          if String.eqb die "%" then 100
          else if String.eqb die "F" then 3
          else Js.toSafeInteger die in
        if die >? MAX_FACES then Throw DieTooBigError
        else
          res_bind
            (createModifier (g_modifier g) num (1 + offset) (die + offset))
            (λ applyModifier,
               Ok (mkRoll negative num die offset applyModifier))
  end) =
  if poolCount numText >? MAX_DICE then Throw TooManyDiceError
  else if faceCount d >? MAX_FACES then Throw DieTooBigError
  else Ok (mkRoll negative (poolCount numText) (faceCount d) (faceOffset d)
             (Some (k, expectedDefault k (poolCount numText) d))).
Proof.
  intros Hn Hd. cbv zeta. rewrite searchDiceChunk_built by done. cbn [g_num g_die g_modifier].
  rewrite length_zero_eqb. fold (poolCount numText).
  destruct (poolCount numText >? MAX_DICE); [done|].
  assert (Hdie : (if String.eqb (Js.toUpperCase (dieText d)) "%" then 100
          else if String.eqb (Js.toUpperCase (dieText d)) "F" then 3
          else Js.toSafeInteger (Js.toUpperCase (dieText d))) = faceCount d
         ∧ (if String.eqb (Js.toUpperCase (dieText d)) "F" then -2 else 0) = faceOffset d).
  { destruct d as [| |ds]; [done | done |]. destruct Hd as [_ Hds].
    cbn [dieText faceCount faceOffset]. rewrite toUpperCase_digits by done.
    by rewrite !digits_eqb_char by done. }
  destruct Hdie as [-> ->].
  destruct (faceCount d >? MAX_FACES); [done|].
  rewrite createModifier_default. cbn [res_bind]. do 3 f_equal.
  destruct k, d; cbn [expectedDefault lowestFace highestFace faceOffset faceCount];
    f_equal; lia.
Qed.

Lemma validChunk_unsigned numText d k :
  Js.allDigits numText = true → wellFormedDie d →
  validChunk (numText +:+ "d" +:+ dieText d +:+ modToken k) = true.
Proof.
  intros Hn Hd. unfold validChunk.
  assert (Hbody : match numText +:+ "d" +:+ dieText d +:+ modToken k with
                  | String c r => if Js.isSign c then r else numText +:+ "d" +:+ dieText d +:+ modToken k
                  | EmptyString => numText +:+ "d" +:+ dieText d +:+ modToken k
                  end = numText +:+ "d" +:+ dieText d +:+ modToken k).
  { destruct numText as [|c r]; [done|]. rewrite append_cons.
    simpl in Hn. apply andb_true_iff in Hn as [Hc _].
    unfold Js.isSign. by rewrite !(digit_not_char c). }
  rewrite Hbody. by rewrite matchDiceChunkAt_built.
Qed.

(** A chunk assembled from a sign, a count, a face specification and a
    bare modifier token is valid and compiles with the default argument
    of that modifier. *)
Lemma createRoll_chunkText (sign numText : string) (d : DieSpec)
  (k : ModKind) :
  sign = "" ∨ sign = "+" ∨ sign = "-" →
  Js.allDigits numText = true →
  wellFormedDie d →
  validChunk (chunkText sign numText d k) = true
  ∧ createRoll (chunkText sign numText d k)
    = if poolCount numText >? MAX_DICE then Throw TooManyDiceError
      else if faceCount d >? MAX_FACES then Throw DieTooBigError
      else Ok (mkRoll (String.eqb sign "-") (poolCount numText)
                 (faceCount d) (faceOffset d)
                 (Some (k, expectedDefault k (poolCount numText) d))).
Proof.
  intros Hs Hn Hd. unfold chunkText.
  destruct Hs as [-> | [-> | ->]].
  - rewrite append_nil_l. split; [by apply validChunk_unsigned|].
    unfold createRoll. rewrite !startsWith_built by done.
    cbn [orb]. by apply createRoll_unsigned.
  - rewrite append_cons, append_nil_l. split.
    + unfold validChunk. change (Js.isSign "+") with true. cbv iota.
      by rewrite matchDiceChunkAt_built.
    + unfold createRoll. cbn [Js.startsWith Js.dropFirst].
      change (Ascii.eqb "+" "-") with false. change (Ascii.eqb "+" "+") with true.
      cbn [orb]. cbv iota. by apply createRoll_unsigned.
  - rewrite append_cons, append_nil_l. split.
    + unfold validChunk. change (Js.isSign "-") with true. cbv iota.
      by rewrite matchDiceChunkAt_built.
    + unfold createRoll. cbn [Js.startsWith Js.dropFirst].
      change (Ascii.eqb "-" "-") with true.
      cbn [orb]. cbv iota. by apply createRoll_unsigned.
Qed.

Lemma spanDigits_inv (s : string) :
  ∀ ds r, Js.spanDigits s = (ds, r) →
          s = ds +:+ r ∧ Js.allDigits ds = true ∧ startsWithDigit r = false.
Proof.
  induction s as [|c s IH]; intros ds r H; simpl in H.
  - by simplify_eq.
  - destruct (Js.isDigit c) eqn:Hc.
    + destruct (Js.spanDigits s) as [ds' r'] eqn:Hs. simplify_eq.
      destruct (IH ds' r eq_refl) as (-> & Hd & Hr).
      rewrite append_cons. simpl. by rewrite Hc, Hd.
    + simplify_eq. by rewrite append_nil_l.
Qed.

Lemma allDigits_no_match (s : string) :
  Js.allDigits s = true → searchDiceChunk s = None.
Proof.
  induction s as [|c s IH]; intros H; [done|].
  simpl in H. apply andb_true_iff in H as [Hc Hs].
  cbn [searchDiceChunk]. rewrite IH by done.
  unfold matchDiceChunkAt.
  rewrite <- (append_empty_r (String c s)), spanDigits_app; [done | | done].
  simpl. by rewrite Hc, Hs.
Qed.

Lemma char_eqb_true (a b : ascii) : Ascii.eqb a b = true → a = b.
Proof. by intros ?%Ascii.eqb_eq. Qed.

Lemma matchDie_inv (s die r : string) :
  matchDie s = Some (die, r) →
  s = die +:+ r ∧ ∃ d, die = dieText d ∧ wellFormedDie d.
Proof.
  unfold matchDie. destruct s as [|c s]; [done|].
  destruct (Ascii.eqb c "f") eqn:Hf; simpl.
  { apply char_eqb_true in Hf as ->. intros ?; simplify_eq.
    split; [done|]. by exists Fudge. }
  destruct (Ascii.eqb c "%") eqn:Hp; simpl.
  { apply char_eqb_true in Hp as ->. intros ?; simplify_eq.
    split; [done|]. by exists Percent. }
  destruct (Js.isDigit c) eqn:Hc; [|done].
  destruct (Js.spanDigits s) as [ds r'] eqn:Hs. simpl. intros ?; simplify_eq.
  destruct (spanDigits_inv s ds r Hs) as (-> & Hd & Hr).
  split; [done|].
  exists (Faces (String c ds)). simpl. by rewrite Hc, Hd.
Qed.

Lemma digit_bounds (c : ascii) :
  Js.isDigit c = true → (48 ≤ N_of_ascii c ≤ 57)%N.
Proof.
  unfold Js.isDigit. intros [H1 H2]%andb_true_iff.
  apply N.leb_le in H1, H2. lia.
Qed.

Lemma isDigit_not_lower (c : ascii) :
  Js.isDigit c = true → Js.isLowerOrBang c = false.
Proof.
  intros Hc. pose proof (digit_bounds c Hc) as Hb.
  unfold Js.isLowerOrBang. rewrite (digit_not_char c "!") by done.
  destruct (N.leb_spec 97 (N_of_ascii c)); [lia | done].
Qed.

Lemma isDigit_not_terminator (c : ascii) :
  Js.isDigit c = true → Js.isLineTerminator c = false.
Proof.
  intros Hc. pose proof (digit_bounds c Hc) as Hb.
  unfold Js.isLineTerminator.
  destruct (N.eqb_spec (N_of_ascii c) 10); [lia|].
  destruct (N.eqb_spec (N_of_ascii c) 13); [lia | done].
Qed.

Lemma spanWhile_lower_digits (ds : string) :
  Js.allDigits ds = true → spanWhile Js.isLowerOrBang ds = ("", ds).
Proof.
  destruct ds as [|c r]; [done|]. simpl. intros [Hc _]%andb_true_iff.
  by rewrite isDigit_not_lower.
Qed.

Lemma rest_empty_digits (ds : string) :
  Js.allDigits ds = true →
  (spanWhile (λ x, negb (Js.isLineTerminator x)) ds).1 = "" → ds = "".
Proof.
  destruct ds as [|c r]; [done|]. simpl. intros [Hc _]%andb_true_iff.
  rewrite isDigit_not_terminator by done. simpl.
  by destruct (spanWhile _ r).
Qed.

Lemma or_eqb_cases (c a b : ascii) :
  Ascii.eqb c a || Ascii.eqb c b = true → c = a ∨ c = b.
Proof.
  intros [H|H]%orb_true_iff; apply char_eqb_true in H; auto.
Qed.

Lemma takesSignedArg_cases (c : ascii) :
  takesSignedArg c = true → c = "r"%char ∨ c = "t"%char ∨ c = "!"%char.
Proof.
  unfold takesSignedArg.
  intros [[H|H]%orb_true_iff|H]%orb_true_iff; apply char_eqb_true in H; auto.
Qed.

(** A modifier the grammar accepts and in which [createModifier] finds
    no argument is one of the seven bare tokens. *)
Lemma matchModifier_argless (s m r func : string) :
  matchModifier s = Some (m, r) →
  matchFuncRest m = Some (func, "") →
  s = m +:+ r ∧ ∃ k, m = modToken k.
Proof.
  unfold matchModifier. destruct s as [|c1 r1]; [done|].
  destruct r1 as [|c2 r2].
  - destruct (takesSignedArg c1) eqn:Hc1; [|done].
    intros ? _; simplify_eq. split; [done|].
    destruct (takesSignedArg_cases _ Hc1) as [->|[->| ->]];
      [by exists Reroll | by exists Twice | by exists Explode].
  - destruct ((Ascii.eqb c1 "d" || Ascii.eqb c1 "k")
              && (Ascii.eqb c2 "l" || Ascii.eqb c2 "h")) eqn:Hkd.
    + apply andb_true_iff in Hkd as [H1 H2].
      destruct (Js.spanDigits r2) as [ds rest] eqn:Hs.
      destruct (spanDigits_inv _ _ _ Hs) as (-> & Hd & _).
      intros ? Hm; simplify_eq.
      assert (ds = "") as ->.
      { apply rest_empty_digits; [done|].
        destruct (or_eqb_cases _ _ _ H1) as [-> | ->],
                 (or_eqb_cases _ _ _ H2) as [-> | ->];
          simpl in Hm; rewrite spanWhile_lower_digits in Hm by done;
          by simplify_eq. }
      split; [done|].
      destruct (or_eqb_cases _ _ _ H1) as [-> | ->],
               (or_eqb_cases _ _ _ H2) as [-> | ->];
        [by exists DropLowest | by exists DropHighest
        | by exists KeepLowest | by exists KeepHighest].
    + destruct (takesSignedArg c1) eqn:Hc1; [|done].
      destruct (Js.isSign c2) eqn:Hc2.
      * destruct (Js.spanDigits r2) as [ds rest] eqn:Hs.
        intros ? Hm; simplify_eq. exfalso.
        destruct (or_eqb_cases _ _ _ Hc2) as [-> | ->],
                 (takesSignedArg_cases _ Hc1) as [->|[->| ->]];
          simpl in Hm; destruct (spanWhile _ ds); by simplify_eq.
      * destruct (Js.spanDigits (String c2 r2)) as [ds rest] eqn:Hs.
        destruct (spanDigits_inv _ _ _ Hs) as (Heq & Hd & _).
        intros ? Hm; simplify_eq. rewrite Heq.
        assert (ds = "") as ->.
        { apply rest_empty_digits; [done|].
          destruct (takesSignedArg_cases _ Hc1) as [->|[->| ->]];
            simpl in Hm; rewrite spanWhile_lower_digits in Hm by done;
            by simplify_eq. }
        split; [done|].
        destruct (takesSignedArg_cases _ Hc1) as [->|[->| ->]];
          [by exists Reroll | by exists Twice | by exists Explode].
Qed.

Lemma matchDiceChunkAt_inv (s r : string) (g : Groups) :
  matchDiceChunkAt s = Some (g, r) →
  Js.allDigits (g_num g) = true
  ∧ (∃ d, g_die g = dieText d ∧ wellFormedDie d)
  ∧ ∃ r3, s = g_num g +:+ "d" +:+ g_die g +:+ r3
          ∧ match g_modifier g with
            | Some m => matchModifier r3 = Some (m, r)
            | None => r3 = r
            end.
Proof.
  unfold matchDiceChunkAt.
  destruct (Js.spanDigits s) as [numText r1] eqn:Hs.
  destruct (spanDigits_inv _ _ _ Hs) as (-> & Hn & _).
  destruct r1 as [|c r2]; [done|].
  destruct (Ascii.eqb c "d") eqn:Hc; [|done].
  apply char_eqb_true in Hc as ->.
  destruct (matchDie r2) as [[dieT r3]|] eqn:Hd; [|done].
  destruct (matchDie_inv _ _ _ Hd) as (-> & d & -> & Hwf).
  destruct (matchModifier r3) as [[m r4]|] eqn:Hm; intros [= <- <-]; simpl;
    (split; [done|]); (split; [by exists d|]); exists r3; done.
Qed.

Lemma rollExprOf_split (chunk : string) :
  (chunk = rollExprOf chunk ∨ chunk = "+" +:+ rollExprOf chunk
   ∨ chunk = "-" +:+ rollExprOf chunk)
  ∧ match chunk with
    | String c r => if Js.isSign c then r else chunk
    | EmptyString => chunk
    end = rollExprOf chunk.
Proof.
  unfold rollExprOf. destruct chunk as [|c r]; [by split; [left|]|].
  unfold Js.isSign. simpl.
  destruct (Ascii.eqb_spec c "-") as [->|]; [by split; [right; right|]|].
  destruct (Ascii.eqb_spec c "+") as [->|]; [by split; [right; left|]|].
  by split; [left|].
Qed.

(** C3: every valid dice-pool chunk written with a modifier and without
    an argument reads sign, count, [d], faces, token, and unless its count
    or its faces exceed the limits it compiles to a roll whose modifier
    argument is the default: the lowest face for reroll, the highest face
    for count-twice and explode (-1 and 1 for Fudge dice, 1 and 100 for
    percentile dice), and [min 1 (count - 1)] for every keep and drop. *)
Theorem default_argument_resolution (chunk : string) :
  validChunk chunk = true →
  arglessModifier chunk = true →
  ∃ (sign numText : string) (d : DieSpec) (k : ModKind),
    chunk = chunkText sign numText d k
    ∧ (sign = "" ∨ sign = "+" ∨ sign = "-")
    ∧ Js.allDigits numText = true
    ∧ wellFormedDie d
    ∧ createRoll chunk
      = if poolCount numText >? MAX_DICE then Throw TooManyDiceError
        else if faceCount d >? MAX_FACES then Throw DieTooBigError
        else Ok (mkRoll (String.eqb sign "-") (poolCount numText)
                   (faceCount d) (faceOffset d)
                   (Some (k, expectedDefault k (poolCount numText) d))).
Proof.
  intros Hv Ha.
  destruct (rollExprOf_split chunk) as [Hsign Hbody].
  unfold validChunk in Hv. rewrite Hbody in Hv.
  unfold arglessModifier in Ha.
  destruct (matchDiceChunkAt (rollExprOf chunk)) as [[g r]|] eqn:Hm.
  - destruct r; [|].
    2:{ apply andb_true_iff in Hv as [_ Hd].
        by rewrite allDigits_no_match in Ha. }
    rewrite (searchDiceChunk_first _ _ _ Hm) in Ha.
    destruct (matchDiceChunkAt_inv _ _ _ Hm) as (Hn & (d & Hd & Hwf) & r3 & Hs & Hmod).
    destruct (g_modifier g) as [m|]; [|done].
    destruct (matchFuncRest m) as [[func rest]|] eqn:Hf; [|done].
    apply String.eqb_eq in Ha as ->.
    destruct (matchModifier_argless _ _ _ _ Hmod Hf) as (-> & k & ->).
    rewrite append_empty_r, Hd in Hs.
    assert (Hsign' : ∃ sign, (sign = "" ∨ sign = "+" ∨ sign = "-")
                             ∧ chunk = chunkText sign (g_num g) d k).
    { unfold chunkText. rewrite <- Hs.
      destruct Hsign as [H|[H|H]]; [exists "" | exists "+" | exists "-"]; auto. }
    destruct Hsign' as (sign & Hsg & ->).
    exists sign, (g_num g), d, k. do 4 (split; [done|]).
    by apply createRoll_chunkText.
  - apply andb_true_iff in Hv as [_ Hd].
    by rewrite allDigits_no_match in Ha.
Qed.

Lemma default_argument_resolution_witness :
  ∃ (sign numText : string) (d : DieSpec) (k : ModKind),
    "-4d6kh" = chunkText sign numText d k
    ∧ (sign = "" ∨ sign = "+" ∨ sign = "-")
    ∧ Js.allDigits numText = true
    ∧ wellFormedDie d
    ∧ createRoll "-4d6kh"
      = if poolCount numText >? MAX_DICE then Throw TooManyDiceError
        else if faceCount d >? MAX_FACES then Throw DieTooBigError
        else Ok (mkRoll (String.eqb sign "-") (poolCount numText)
                   (faceCount d) (faceOffset d)
                   (Some (k, expectedDefault k (poolCount numText) d))).
Proof.
  apply (default_argument_resolution "-4d6kh"); reflexivity.
Defined.

(** Default arguments on sample chunks: Fudge and percentile bounds, and
    all but one for keep and drop. *)
Example default_argument_samples :
  map createRoll ["3dfr"; "3df!"; "2d%t"; "2d%r"; "4d6kh"; "-8d6dl"; "d20kl"]
  = [Ok (mkRoll false 3 3 (-2) (Some (Reroll, -1)));
     Ok (mkRoll false 3 3 (-2) (Some (Explode, 1)));
     Ok (mkRoll false 2 100 0 (Some (Twice, 100)));
     Ok (mkRoll false 2 100 0 (Some (Reroll, 1)));
     Ok (mkRoll false 4 6 0 (Some (KeepHighest, 1)));
     Ok (mkRoll true 8 6 0 (Some (DropLowest, 1)));
     Ok (mkRoll false 1 20 0 (Some (KeepLowest, 0)))].
Proof. vm_compute. reflexivity. Qed.

(** * Further properties *)

(** ** Reroll and count-twice *)

(** X1: reroll returns as many rolls as it was given.  Each roll that
    differs from the argument stays where it was; the rolls equal to it
    are replaced, left to right, by the successive results of the reroll
    function, which is called once for each and no more: a replacement
    that shows the argument again stays. *)
Theorem reroll_once_per_match {Rand : Type} (arg : Z) (roller : Roller)
  (rolls : list Z) (g : Rand) :
  length (reroll arg roller rolls g).1 = length rolls
  ∧ (reroll arg roller rolls g).2
    = (rollerCalls roller (occurrences arg rolls) g).2
  ∧ ∀ (i : nat) (x : Z), rolls !! i = Some x →
      (reroll arg roller rolls g).1 !! i
      = if x =? arg
        then (rollerCalls roller (occurrences arg rolls) g).1
               !! occurrences arg (take i rolls)
        else Some x.
Proof.
  revert g. induction rolls as [|r rs IH]; intros g; [by repeat split|].
  cbn [reroll occurrences].
  destruct (Z.eqb_spec r arg) as [->|Hne].
  - cbn [Nat.add rollerCalls]. destruct (roller g) as [v g1].
    destruct (IH g1) as (Hl & Hg & Hp).
    destruct (reroll arg roller rs g1) as [out g2].
    destruct (rollerCalls roller (occurrences arg rs) g1) as [vs g3].
    simpl in *. split; [by rewrite Hl|]. split; [done|].
    intros [|i] x Hx; simpl in *.
    + simplify_eq. by rewrite Z.eqb_refl.
    + rewrite Z.eqb_refl. simpl. by apply Hp.
  - cbn [Nat.add]. destruct (IH g) as (Hl & Hg & Hp).
    destruct (reroll arg roller rs g) as [out g2].
    simpl in *. split; [by rewrite Hl|]. split; [done|].
    intros [|i] x Hx; simpl in *.
    + simplify_eq. by destruct (Z.eqb_spec x arg).
    + destruct (Z.eqb_spec r arg); [done|]. simpl. by apply Hp.
Qed.

Lemma fold_sum_shift (l : list Z) :
  ∀ a, fold_left sum l a = a + fold_left sum l 0.
Proof.
  induction l as [|x xs IH]; intros a; simpl; [lia|].
  rewrite (IH (sum a x)), (IH (sum 0 x)). unfold sum. lia.
Qed.

Lemma sumOf_cons (x : Z) (l : list Z) : sumOf (x :: l) = x + sumOf l.
Proof. unfold sumOf. simpl. rewrite fold_sum_shift. unfold sum. lia. Qed.

Lemma sumOf_app (l k : list Z) : sumOf (l ++ k) = sumOf l + sumOf k.
Proof.
  induction l as [|x xs IH]; [unfold sumOf; simpl; lia|].
  rewrite <- app_comm_cons, !sumOf_cons, IH. lia.
Qed.


(** ** Keep and drop, further *)

Lemma jsSort_desc_strongly (l : list Z) : StronglySorted Z.ge (jsSort desc l).
Proof.
  apply Sorted_StronglySorted; [|apply jsSort_desc_sorted].
  intros a b c. lia.
Qed.

Lemma jsSort_asc_strongly (l : list Z) : StronglySorted Z.le (jsSort asc l).
Proof.
  apply Sorted_StronglySorted; [|apply jsSort_asc_sorted].
  intros a b c. lia.
Qed.

(** X3: on the same array and for the same count, what keep-highest
    returns and what drop-highest returns are the two parts of the pool:
    together they hold the rolls of the array, each once, and no roll
    dropped is above a roll kept.  Likewise keep-lowest and drop-lowest,
    where no roll dropped is below a roll kept. *)
Theorem keep_drop_same_count_partition (N : Z) (rolls : Ref)
  (σ : gmap Ref (list Z)) :
  ((keepHighest N rolls σ).1 ++ (dropHighest N rolls σ).1 ≡ₚ σ !!! rolls
   ∧ ∀ a b, a ∈ (keepHighest N rolls σ).1 →
            b ∈ (dropHighest N rolls σ).1 → b ≤ a)
  ∧ ((keepLowest N rolls σ).1 ++ (dropLowest N rolls σ).1 ≡ₚ σ !!! rolls
     ∧ ∀ a b, a ∈ (keepLowest N rolls σ).1 →
              b ∈ (dropLowest N rolls σ).1 → a ≤ b).
Proof.
  rewrite keepHighest_result, dropHighest_result, keepLowest_result,
    dropLowest_result.
  split; split.
  - by rewrite take_drop, jsSort_perm.
  - intros a b Ha Hb.
    pose proof (jsSort_desc_strongly (σ !!! rolls)) as Hs.
    rewrite <- (take_drop (Z.to_nat N)) in Hs.
    pose proof (StronglySorted_app_1_elem_of _ _ _ _ _ Hs Ha Hb). lia.
  - by rewrite take_drop, jsSort_perm.
  - intros a b Ha Hb.
    pose proof (jsSort_asc_strongly (σ !!! rolls)) as Hs.
    rewrite <- (take_drop (Z.to_nat N)) in Hs.
    exact (StronglySorted_app_1_elem_of _ _ _ _ _ Hs Ha Hb).
Qed.

(** X4: the drop modifiers sort the caller's own array as the keep
    modifiers do.  After drop-highest the array holds the elements it
    held, in descending order, after drop-lowest in ascending order; the
    array returned is the caller's array without its first [arg] elements;
    no other array is touched. *)
Theorem drop_sorts_in_place (arg : Z) (rolls : Ref) (σ : gmap Ref (list Z)) :
  ((dropHighest arg rolls σ).2 !!! rolls ≡ₚ σ !!! rolls
   ∧ Sorted Z.ge ((dropHighest arg rolls σ).2 !!! rolls)
   ∧ (dropHighest arg rolls σ).1
     = drop (Z.to_nat arg) ((dropHighest arg rolls σ).2 !!! rolls)
   ∧ ∀ r, r ≠ rolls → (dropHighest arg rolls σ).2 !! r = σ !! r)
  ∧ ((dropLowest arg rolls σ).2 !!! rolls ≡ₚ σ !!! rolls
     ∧ Sorted Z.le ((dropLowest arg rolls σ).2 !!! rolls)
     ∧ (dropLowest arg rolls σ).1
       = drop (Z.to_nat arg) ((dropLowest arg rolls σ).2 !!! rolls)
     ∧ ∀ r, r ≠ rolls → (dropLowest arg rolls σ).2 !! r = σ !! r).
Proof.
  split.
  - rewrite dropHighest_result. unfold dropHighest; simpl.
    rewrite arraySort_lookup. repeat split.
    + apply jsSort_perm.
    + apply jsSort_desc_sorted.
    + intros r Hr. by apply arraySort_other.
  - rewrite dropLowest_result. unfold dropLowest; simpl.
    rewrite arraySort_lookup. repeat split.
    + apply jsSort_perm.
    + apply jsSort_asc_sorted.
    + intros r Hr. by apply arraySort_other.
Qed.

(** X5: sizes.  Keep returns [arg] rolls, or all of them when there are
    fewer, or none when [arg] is zero or negative; drop returns the
    others.  So keep with a count of zero or less and drop with a count
    of the pool size or more both return the empty array. *)
Theorem keep_drop_sizes (arg : Z) (rolls : Ref) (σ : gmap Ref (list Z)) :
  length (keepHighest arg rolls σ).1
  = Z.to_nat (Z.min (Z.max arg 0) (Z.of_nat (length (σ !!! rolls))))
  ∧ length (keepLowest arg rolls σ).1
    = Z.to_nat (Z.min (Z.max arg 0) (Z.of_nat (length (σ !!! rolls))))
  ∧ length (dropHighest arg rolls σ).1
    = Z.to_nat (Z.of_nat (length (σ !!! rolls)) - Z.max arg 0)
  ∧ length (dropLowest arg rolls σ).1
    = Z.to_nat (Z.of_nat (length (σ !!! rolls)) - Z.max arg 0).
Proof.
  rewrite keepHighest_result, dropHighest_result, keepLowest_result,
    dropLowest_result.
  rewrite !length_take, !length_drop, !jsSort_length. lia.
Qed.

(** ** Explode, further *)

Section ExplodeMore.

Context {Rand : Type}.
Implicit Types (roller : Roller (Rand := Rand)) (g : Rand).

Lemma pending_existsb arg (cells : list Cell) :
  existsb (isArg arg) cells = false ↔ pending arg cells = O.
Proof.
  induction cells as [|c cs IH]; simpl; [done|].
  destruct (isArg arg c); simpl; [split; [done | lia] | done].
Qed.

Lemma pending_Num arg (rolls : list Z) :
  pending arg (map Num rolls) = occurrences arg rolls
  ∧ markers (map Num rolls) = O.
Proof.
  induction rolls as [|r rs [IH1 IH2]]; simpl; [done|]. by rewrite IH1, IH2.
Qed.

Lemma occurrences_unmark arg (cells : list Cell) :
  occurrences arg (map (unmark arg) cells)
  = (markers cells + pending arg cells)%nat.
Proof.
  induction cells as [|[z|] cs IH]; simpl; [done | |].
  - rewrite IH. destruct (z =? arg); lia.
  - rewrite IH, Z.eqb_refl. lia.
Qed.

(** One pass adds a marker and a die for every pending cell, and calls
    the roller once for each. *)
Lemma explodePass_counts arg roller (cells : list Cell) :
  ∀ g,
    length (explodePass arg roller cells g).1
    = (length cells + pending arg cells)%nat
    ∧ markers (explodePass arg roller cells g).1
      = (markers cells + pending arg cells)%nat
    ∧ (explodePass arg roller cells g).2
      = (rollerCalls roller (pending arg cells) g).2.
Proof.
  induction cells as [|c cs IH]; intros g; [done|].
  cbn [explodePass pending].
  destruct (isArg arg c) eqn:Hc.
  - cbn [Nat.add rollerCalls]. destruct (roller g) as [v g1].
    destruct (IH g1) as (Hl & Hm & Hg).
    destruct (explodePass arg roller cs g1) as [out g2].
    destruct (rollerCalls roller (pending arg cs) g1) as [vs g3].
    destruct c as [z|]; [|done]. simpl in *. rewrite Hl, Hm. by repeat split; try lia.
  - destruct (IH g) as (Hl & Hm & Hg).
    destruct (explodePass arg roller cs g) as [out g2].
    destruct c as [z|]; simpl in *; rewrite Hl, Hm; repeat split; done || lia.
Qed.

(** With a roller that never shows the target, nothing is pending after
    a pass. *)
Lemma explodePass_settles arg roller (cells : list Cell) :
  (∀ g, (roller g).1 ≠ arg) →
  ∀ g, pending arg (explodePass arg roller cells g).1 = O.
Proof.
  intros Hr. induction cells as [|c cs IH]; intros g; [done|].
  cbn [explodePass]. destruct (isArg arg c) eqn:Hc.
  - pose proof (Hr g) as Hv. destruct (roller g) as [v g1].
    specialize (IH g1). destruct (explodePass arg roller cs g1) as [out g2].
    simpl in *. by destruct (Z.eqb_spec v arg).
  - specialize (IH g). destruct (explodePass arg roller cs g) as [out g2].
    simpl in *. by rewrite Hc.
Qed.

(** What the loop keeps: the length grows by the markers added; on exit
    with [sentinel] not negative nothing is pending; and [sentinel] is
    negative on exit exactly when something was pending before each of
    the passes it allowed. *)
Lemma explodeLoop_invariant arg roller (fuel : nat) :
  ∀ sentinel cells g s' cells' g',
    explodeLoop fuel arg roller sentinel cells g = Some (s', cells', g') →
    (length cells' + markers cells = length cells + markers cells')%nat
    ∧ (0 ≤ s' → pending arg cells' = O)
    ∧ (s' < 0 ↔ ∀ k, (k < Z.to_nat sentinel)%nat →
                     pending arg (explodePasses arg roller k cells g).1 ≠ O).
Proof.
  induction fuel as [|fuel IH]; intros sentinel cells g s' cells' g' He;
    [done|].
  simpl in He. destruct (Z.ltb_spec 0 sentinel) as [Hpos|Hneg]; simpl in He.
  - destruct (existsb (isArg arg) cells) eqn:Hex.
    + pose proof (explodePass_counts arg roller cells g) as (Hl & Hm & _).
      destruct (explodePass arg roller cells g) as [cells1 g1] eqn:Hp.
      destruct (IH _ _ _ _ _ _ He) as (Hlen & Hpend & Hiff).
      simpl in *. split; [lia|]. split; [done|].
      rewrite Hiff. split.
      * intros H [|k] Hk; simpl.
        -- intros H0. apply pending_existsb in H0. congruence.
        -- rewrite Hp. apply H. lia.
      * intros H k Hk. specialize (H (S k)). simpl in H. rewrite Hp in H.
        apply H. lia.
    + simplify_eq. apply pending_existsb in Hex.
      split; [done|]. split; [done|]. split; [lia|].
      intros H. exfalso. apply (H O); [lia | done].
  - simplify_eq. split; [done|]. split; [lia|]. split; [|lia].
    intros _ k Hk. lia.
Qed.

End ExplodeMore.

(** X6: when no roll shows the target and the pool has fewer than 100
    dice, explode returns the rolls as they are and rolls no die. *)
Theorem explode_without_match {Rand : Type} (arg : Z) (roller : Roller)
  (rolls : list Z) (g : Rand) (fuel : nat) :
  occurrences arg rolls = O →
  Z.of_nat (length rolls) < MAX_DICE →
  explode (S fuel) arg roller rolls g = Done (rolls, g).
Proof.
  intros Ho Hl. unfold explode; simpl.
  destruct (pending_Num arg rolls) as [Hp _]. rewrite Ho in Hp.
  apply pending_existsb in Hp. rewrite Hp, andb_false_r.
  destruct (Z.ltb_spec (MAX_DICE - Z.of_nat (length rolls) - 1) 0); [lia|].
  by rewrite unmark_Num.
Qed.

Lemma explode_without_match_witness :
  explode 1 6 (rollOne scripted 6 0) [1; 5; 2] [(6, [6; 6])]
  = Done ([1; 5; 2], [(6, [6; 6])]).
Proof.
  apply (explode_without_match 6 (rollOne scripted 6 0) [1; 5; 2]
           [(6, [6; 6])] 0); [reflexivity | vm_compute; reflexivity].
Defined.

(** X7: when explode returns, every roll in the result that shows the
    target has had its extra die rolled: the result holds as many rolls
    showing the target as it holds rolls more than the input.  And it
    returns only for pools of fewer than 100 dice. *)
Theorem explode_result_resolved {Rand : Type} (arg : Z) (roller : Roller)
  (rolls : list Z) (g : Rand) (fuel : nat) (out : list Z) (g' : Rand) :
  explode fuel arg roller rolls g = Done (out, g') →
  (length out = length rolls + occurrences arg out)%nat
  ∧ Z.of_nat (length rolls) < MAX_DICE.
Proof.
  unfold explode. intros He.
  destruct (explodeLoop fuel arg roller _ (map Num rolls) g)
    as [[[s' cells'] g1]|] eqn:Hloop; [|done].
  destruct (explodeLoop_invariant _ _ _ _ _ _ _ _ _ Hloop) as (Hlen & Hpend & Hiff).
  destruct (Z.ltb_spec s' 0) as [|Hs]; [done|]. simplify_eq.
  destruct (pending_Num arg rolls) as [_ Hm].
  rewrite occurrences_unmark, !length_map, Hpend, Hm in * by done.
  split; [lia|].
  destruct (Z.ltb_spec (Z.of_nat (length rolls)) MAX_DICE) as [|Hge]; [done|].
  exfalso. apply Z.nlt_ge in Hs. apply Hs, Hiff. intros k Hk. lia.
Qed.

Lemma explode_result_resolved_witness :
  (length [7; 10; 10; 3; 5; 4]%Z
   = length [7; 10; 5; 4]%Z + occurrences 10%Z [7; 10; 10; 3; 5; 4]%Z)%nat
  ∧ Z.of_nat (length [7; 10; 5; 4]) < MAX_DICE.
Proof.
  apply (explode_result_resolved 10 (rollOne scripted 10 0) [7; 10; 5; 4]
           [(10, [10; 3])] 3 [7; 10; 10; 3; 5; 4] [(10, [])]).
  vm_compute. reflexivity.
Defined.

(** X8: the limit of explode is a limit on passes.  With [s] the number
    of dice the pool is short of 100, explode raises RollLimitExceeded
    exactly when a roll showing the target is left before each of the
    first [s] passes; a pool of 100 or more has no pass and raises at
    once.  The number of dice the passes add plays no part. *)
Theorem explode_raises_iff {Rand : Type} (arg : Z) (roller : Roller)
  (rolls : list Z) (g : Rand) (extra : nat) :
  explode (S (Z.to_nat (MAX_DICE - Z.of_nat (length rolls))) + extra)
    arg roller rolls g
  = Raise RollLimitExceededError
  ↔ ∀ k : nat,
      (k < Z.to_nat (MAX_DICE - Z.of_nat (length rolls)))%nat →
      pending arg (explodePasses arg roller k (map Num rolls) g).1 ≠ O.
Proof.
  unfold explode.
  destruct (explodeLoop_returns arg roller
              (S (Z.to_nat (MAX_DICE - Z.of_nat (length rolls))) + extra)
              (MAX_DICE - Z.of_nat (length rolls)) (map Num rolls) g)
    as (s' & cells' & g' & Hloop & _); [lia|].
  rewrite Hloop.
  destruct (explodeLoop_invariant _ _ _ _ _ _ _ _ _ Hloop) as (_ & _ & Hiff).
  rewrite <- Hiff.
  destruct (Z.ltb_spec s' 0); split; (done || lia).
Qed.

(** X9: when the reroll function never shows the target and the pool is
    at least two dice short of 100, explode returns after one pass: one
    die more for every roll that showed the target, the reroll function
    called once for each, the rolls given all in place. *)
Theorem explode_single_pass {Rand : Type} (arg : Z) (roller : Roller)
  (rolls : list Z) (g : Rand) (fuel : nat) :
  (∀ g0, (roller g0).1 ≠ arg) →
  Z.of_nat (length rolls) + 2 ≤ MAX_DICE →
  ∃ out,
    explode (S (S fuel)) arg roller rolls g
    = Done (out, (rollerCalls roller (occurrences arg rolls) g).2)
    ∧ length out = (length rolls + occurrences arg rolls)%nat
    ∧ rolls `sublist_of` out.
Proof.
  intros Hr Hl.
  destruct (pending_Num arg rolls) as [Hp _].
  unfold explode. cbn [explodeLoop].
  destruct (Z.ltb_spec 0 (MAX_DICE - Z.of_nat (length rolls))) as [_|]; [|lia].
  cbn [andb].
  destruct (existsb (isArg arg) (map Num rolls)) eqn:Hex.
  - pose proof (explodePass_counts arg roller (map Num rolls) g) as (Hlen & _ & Hg).
    pose proof (explodePass_grows arg roller (map Num rolls) g) as [_ Hsub].
    pose proof (explodePass_settles arg roller (map Num rolls) Hr g) as Hset.
    destruct (explodePass arg roller (map Num rolls) g) as [cells1 g1].
    simpl in Hlen, Hg, Hsub, Hset.
    apply pending_existsb in Hset.
    destruct (Z.ltb_spec 0 (MAX_DICE - Z.of_nat (length rolls) - 1)) as [_|]; [|lia].
    rewrite Hset. cbn [andb].
    destruct (Z.ltb_spec (MAX_DICE - Z.of_nat (length rolls) - 1 - 1) 0); [lia|].
    exists (map (unmark arg) cells1).
    rewrite Hp, length_map in Hlen. rewrite Hp in Hg.
    rewrite unmark_Num in Hsub.
    by rewrite Hg, length_map, Hlen.
  - apply pending_existsb in Hex. rewrite Hp in Hex. rewrite Hex.
    destruct (Z.ltb_spec (MAX_DICE - Z.of_nat (length rolls) - 1) 0); [lia|].
    exists rolls. rewrite unmark_Num. simpl. by rewrite Nat.add_0_r.
Qed.

Lemma explode_single_pass_witness :
  ∃ out,
    explode 2 6 (λ g : unit, (2, g)) [6; 1; 6] tt
    = Done (out, (rollerCalls (λ g : unit, (2, g))
                    (occurrences 6 [6; 1; 6]) tt).2)
    ∧ length out = (length [6; 1; 6]%Z + occurrences 6%Z [6; 1; 6]%Z)%nat
    ∧ [6; 1; 6] `sublist_of` out.
Proof.
  apply (explode_single_pass 6 (λ g : unit, (2, g)) [6; 1; 6] tt 0).
  - intros g0. simpl. lia.
  - vm_compute. discriminate.
Defined.

(** ** Compiling any valid chunk *)

Lemma spanWhile_all (p : ascii → bool) (s : string) :
  Js.allDigits s = true → (∀ c, Js.isDigit c = true → p c = true) →
  spanWhile p s = (s, "").
Proof.
  intros Hs Hp. induction s as [|c r IH]; [done|].
  simpl in Hs. apply andb_true_iff in Hs as [Hc Hr].
  simpl. by rewrite (Hp c Hc), IH.
Qed.

Lemma rest_of_digits (ds : string) :
  Js.allDigits ds = true →
  (spanWhile (λ x, negb (Js.isLineTerminator x)) ds).1 = ds.
Proof.
  intros Hd. rewrite spanWhile_all; [done | done |].
  intros c Hc. by rewrite isDigit_not_terminator.
Qed.

Lemma modifierFunctions_token (k : ModKind) :
  modifierFunctions (Js.toUpperCase (modToken k)) = Some k.
Proof. by destruct k. Qed.

Lemma defaultModifierArg_token (k : ModKind) (n hi lo : Z) :
  defaultModifierArg (Js.toUpperCase (modToken k)) n hi lo
  = match k with
    | Reroll => hi
    | Twice | Explode => lo
    | _ => Z.min 1 (n - 1)
    end.
Proof. by destruct k. Qed.

(** What the modifier pattern accepts is a token followed by an argument
    text, and [createModifier] splits it there. *)
Lemma matchModifier_shape (s m r : string) :
  matchModifier s = Some (m, r) →
  s = m +:+ r
  ∧ ∃ k argText,
      m = modToken k +:+ argText
      ∧ wellFormedArg k argText
      ∧ matchFuncRest m = Some (modToken k, argText).
Proof.
  unfold matchModifier. destruct s as [|c1 r1]; [done|].
  destruct r1 as [|c2 r2].
  - destruct (takesSignedArg c1) eqn:Hc1; [|done].
    intros ?; simplify_eq. split; [done|].
    destruct (takesSignedArg_cases _ Hc1) as [->|[->| ->]];
      [exists Reroll, "" | exists Twice, "" | exists Explode, ""];
      (split; [done|]); (split; [by left | done]).
  - destruct ((Ascii.eqb c1 "d" || Ascii.eqb c1 "k")
              && (Ascii.eqb c2 "l" || Ascii.eqb c2 "h")) eqn:Hkd.
    + apply andb_true_iff in Hkd as [H1 H2].
      destruct (Js.spanDigits r2) as [ds rest] eqn:Hs.
      destruct (spanDigits_inv _ _ _ Hs) as (-> & Hd & _).
      intros ?; simplify_eq. split; [done|].
      destruct (or_eqb_cases _ _ _ H1) as [-> | ->],
               (or_eqb_cases _ _ _ H2) as [-> | ->];
        [exists DropLowest, ds | exists DropHighest, ds
        | exists KeepLowest, ds | exists KeepHighest, ds];
        (split; [done|]); (split; [by left|]);
        simpl; by rewrite spanWhile_lower_digits, rest_of_digits.
    + destruct (takesSignedArg c1) eqn:Hc1; [|done].
      destruct (Js.isSign c2) eqn:Hc2.
      * destruct (Js.spanDigits r2) as [ds rest] eqn:Hs.
        destruct (spanDigits_inv _ _ _ Hs) as (-> & Hd & _).
        intros ?; simplify_eq. split; [done|].
        pose proof (rest_of_digits ds Hd) as Hrest.
        destruct (takesSignedArg_cases _ Hc1) as [->|[->| ->]];
          [exists Reroll, (String c2 ds) | exists Twice, (String c2 ds)
          | exists Explode, (String c2 ds)];
          (split; [done|]);
          (split; [right; split; [auto | by exists c2, ds]|]);
          destruct (or_eqb_cases _ _ _ Hc2) as [-> | ->]; simpl;
          destruct (spanWhile _ ds); simpl in Hrest; by subst.
      * destruct (Js.spanDigits (String c2 r2)) as [ds rest] eqn:Hs.
        destruct (spanDigits_inv _ _ _ Hs) as (Heq & Hd & _).
        intros ?; simplify_eq. rewrite Heq. split; [done|].
        destruct (takesSignedArg_cases _ Hc1) as [->|[->| ->]];
          [exists Reroll, ds | exists Twice, ds | exists Explode, ds];
          (split; [done|]); (split; [by left|]);
          simpl; by rewrite spanWhile_lower_digits, rest_of_digits.
Qed.

Lemma chunk_sign_split (chunk : string) :
  ∃ sign, (sign = "" ∨ sign = "+" ∨ sign = "-")
          ∧ chunk = sign +:+ rollExprOf chunk
          ∧ Js.startsWith chunk "-" = String.eqb sign "-".
Proof.
  unfold rollExprOf. destruct chunk as [|c r]; [exists ""; auto|].
  simpl. destruct (Ascii.eqb_spec c "-") as [->|].
  { exists "-". auto. }
  destruct (Ascii.eqb_spec c "+") as [->|].
  { exists "+". auto. }
  exists "". auto.
Qed.

Lemma contains_app (c : ascii) (a b : string) :
  Js.contains c (a +:+ b) = Js.contains c a || Js.contains c b.
Proof.
  induction a as [|x a IH]; [done|].
  rewrite append_cons. simpl. by rewrite IH, orb_assoc.
Qed.

Lemma digits_contain_no_d (s : string) :
  Js.allDigits s = true → Js.contains "d" s = false.
Proof.
  induction s as [|c r IH]; [done|]. simpl.
  intros [Hc Hr]%andb_true_iff. by rewrite (digit_not_char c "d"), IH.
Qed.

(** A valid chunk that holds a [d] matches the dice pattern in full. *)
Lemma valid_dice_chunk_matches (chunk : string) :
  validChunk chunk = true → Js.contains "d" chunk = true →
  ∃ g, matchDiceChunkAt (rollExprOf chunk) = Some (g, "").
Proof.
  intros Hv Hd. unfold validChunk in Hv.
  destruct (rollExprOf_split chunk) as [_ Hbody]. rewrite Hbody in Hv.
  destruct (matchDiceChunkAt (rollExprOf chunk)) as [[g [|c r]]|]; [by exists g | |].
  - apply andb_true_iff in Hv as [_ Hall]. exfalso.
    destruct (chunk_sign_split chunk) as (sign & Hs & Heq & _).
    rewrite Heq, contains_app, (digits_contain_no_d _ Hall), orb_false_r in Hd.
    by destruct Hs as [->|[->| ->]].
  - apply andb_true_iff in Hv as [_ Hall]. exfalso.
    destruct (chunk_sign_split chunk) as (sign & Hs & Heq & _).
    rewrite Heq, contains_app, (digits_contain_no_d _ Hall), orb_false_r in Hd.
    by destruct Hs as [->|[->| ->]].
Qed.

Lemma createModifier_written (m : option (ModKind * string)) (mtext : option string)
  (n : Z) (d : DieSpec) :
  match mtext, m with
  | None, None => True
  | Some t, Some (k, a) => matchFuncRest t = Some (modToken k, a)
  | _, _ => False
  end →
  createModifier mtext n (1 + faceOffset d) (faceCount d + faceOffset d)
  = Ok (compiledModifier m n d).
Proof.
  destruct mtext as [t|], m as [[k a]|]; try done.
  intros Hf. unfold createModifier. rewrite Hf.
  rewrite modifierFunctions_token, defaultModifierArg_token, length_zero_eqb.
  unfold compiledModifier, resolvedArg. do 3 f_equal.
  destruct (String.eqb a ""); [|done].
  destruct k, d; cbn [expectedDefault lowestFace highestFace faceOffset faceCount]; lia.
Qed.

Lemma die_value (d : DieSpec) :
  wellFormedDie d →
  (if String.eqb (Js.toUpperCase (dieText d)) "%" then 100
   else if String.eqb (Js.toUpperCase (dieText d)) "F" then 3
   else Js.toSafeInteger (Js.toUpperCase (dieText d))) = faceCount d
  ∧ (if String.eqb (Js.toUpperCase (dieText d)) "F" then -2 else 0)
    = faceOffset d.
Proof.
  intros Hd. destruct d as [| |ds]; [done | done |]. destruct Hd as [_ Hds].
  cbn [dieText faceCount faceOffset]. rewrite toUpperCase_digits by done.
  by rewrite !digits_eqb_char by done.
Qed.

(** A valid chunk that holds a [d], taken apart, and what it compiles
    to. *)
Lemma createRoll_valid (chunk : string) :
  validChunk chunk = true →
  Js.contains "d" chunk = true →
  ∃ (sign numText : string) (d : DieSpec) (m : option (ModKind * string)),
    chunk = diceChunkText sign numText d m
    ∧ (sign = "" ∨ sign = "+" ∨ sign = "-")
    ∧ Js.allDigits numText = true
    ∧ wellFormedDie d
    ∧ match m with Some (k, a) => wellFormedArg k a | None => True end
    ∧ createRoll chunk
      = if poolCount numText >? MAX_DICE then Throw TooManyDiceError
        else if faceCount d >? MAX_FACES then Throw DieTooBigError
        else Ok (mkRoll (String.eqb sign "-") (poolCount numText)
                   (faceCount d) (faceOffset d)
                   (compiledModifier m (poolCount numText) d)).
Proof.
  intros Hv Hd.
  destruct (valid_dice_chunk_matches chunk Hv Hd) as [g Hm].
  destruct (chunk_sign_split chunk) as (sign & Hs & Heq & Hneg).
  destruct (matchDiceChunkAt_inv _ _ _ Hm) as (Hn & (d & Hdie & Hwf) & r3 & Hbody & Hmod).
  assert (Hw : ∃ m : option (ModKind * string),
             r3 = modifierText m
             ∧ match m with Some (k, a) => wellFormedArg k a | None => True end
             ∧ match g_modifier g, m with
               | None, None => True
               | Some t, Some (k, a) => matchFuncRest t = Some (modToken k, a)
               | _, _ => False
               end).
  { destruct (g_modifier g) as [t|].
    - destruct (matchModifier_shape _ _ _ Hmod) as (-> & k & a & -> & Hwa & Hf).
      exists (Some (k, a)). by rewrite append_empty_r.
    - exists None. by subst. }
  destruct Hw as (m & -> & Hwa & Hcm).
  exists sign, (g_num g), d, m.
  split. { unfold diceChunkText. rewrite Heq at 1. by rewrite Hbody, Hdie. }
  do 4 (split; [done|]).
  unfold createRoll. fold (rollExprOf chunk).
  rewrite (searchDiceChunk_first _ _ _ Hm), Hneg, length_zero_eqb.
  fold (poolCount (g_num g)).
  destruct (poolCount (g_num g) >? MAX_DICE); [done|].
  rewrite Hdie. destruct (die_value d Hwf) as [-> ->].
  destruct (faceCount d >? MAX_FACES); [done|].
  by rewrite (createModifier_written m).
Qed.

(** X10: every valid chunk that holds a [d] reads sign, count, [d],
    faces and, if any, a modifier token with its argument text.  It
    compiles to the pool it describes, the modifier argument being the
    number written, or the modifier's default when none is written,
    unless the count exceeds 100 (TooManyDice) or else the faces exceed
    1000 (DieTooBig); no other error can arise. *)
Theorem createRoll_valid_chunk (chunk : string) :
  validChunk chunk = true →
  Js.contains "d" chunk = true →
  ∃ (sign numText : string) (d : DieSpec) (m : option (ModKind * string)),
    chunk = diceChunkText sign numText d m
    ∧ (sign = "" ∨ sign = "+" ∨ sign = "-")
    ∧ Js.allDigits numText = true
    ∧ wellFormedDie d
    ∧ match m with Some (k, a) => wellFormedArg k a | None => True end
    ∧ createRoll chunk
      = if poolCount numText >? MAX_DICE then Throw TooManyDiceError
        else if faceCount d >? MAX_FACES then Throw DieTooBigError
        else Ok (mkRoll (String.eqb sign "-") (poolCount numText)
                   (faceCount d) (faceOffset d)
                   (compiledModifier m (poolCount numText) d)).
Proof. exact (createRoll_valid chunk). Qed.

Lemma createRoll_valid_chunk_witness :
  ∃ (sign numText : string) (d : DieSpec) (m : option (ModKind * string)),
    "-3dfr-1" = diceChunkText sign numText d m
    ∧ (sign = "" ∨ sign = "+" ∨ sign = "-")
    ∧ Js.allDigits numText = true
    ∧ wellFormedDie d
    ∧ match m with Some (k, a) => wellFormedArg k a | None => True end
    ∧ createRoll "-3dfr-1"
      = if poolCount numText >? MAX_DICE then Throw TooManyDiceError
        else if faceCount d >? MAX_FACES then Throw DieTooBigError
        else Ok (mkRoll (String.eqb sign "-") (poolCount numText)
                   (faceCount d) (faceOffset d)
                   (compiledModifier m (poolCount numText) d)).
Proof.
  apply (createRoll_valid_chunk "-3dfr-1"); reflexivity.
Defined.

(** ** What parse raises and what it returns *)

Lemma decimal_nonneg (s : string) :
  ∀ acc, 0 ≤ acc → Js.allDigits s = true → 0 ≤ Js.decimal acc s.
Proof.
  induction s as [|c r IH]; intros acc Ha Hs; [done|].
  simpl in *. apply andb_true_iff in Hs as [Hc Hr].
  apply IH; [|done]. pose proof (digit_bounds c Hc). unfold Js.digitValue. lia.
Qed.

Lemma toSafeInteger_digits (s : string) :
  Js.allDigits s = true →
  0 ≤ Js.toSafeInteger s ≤ Js.MAX_SAFE_INTEGER.
Proof.
  intros Hs. destruct s as [|c r]; [by vm_compute|].
  pose proof (decimal_nonneg (String c r) 0 (Z.le_refl 0) Hs) as Hd.
  unfold Js.toSafeInteger.
  pose proof Hs as Hs'. simpl in Hs'. apply andb_true_iff in Hs' as [Hc _].
  rewrite (digit_not_char c "-"), (digit_not_char c "+"), Hs by done.
  unfold Js.clamp, Js.MAX_SAFE_INTEGER in *. lia.
Qed.

Lemma poolCount_nonneg (numText : string) :
  Js.allDigits numText = true → 0 ≤ poolCount numText.
Proof.
  intros Hn. unfold poolCount. destruct (String.eqb numText ""); [lia|].
  by apply toSafeInteger_digits.
Qed.

Lemma faceCount_nonneg (d : DieSpec) : wellFormedDie d → 0 ≤ faceCount d.
Proof.
  destruct d as [| |ds]; simpl; [lia | lia |].
  intros [_ Hd]. by apply toSafeInteger_digits.
Qed.

(** A valid chunk compiles, or exceeds one of the two limits. *)
Lemma createPart_valid (c : string) :
  validChunk c = true →
  (∃ p, createPart c = Ok p ∧ wellFormedPart p)
  ∨ createPart c = Throw TooManyDiceError
  ∨ createPart c = Throw DieTooBigError.
Proof.
  intros Hv. unfold createPart, createConst.
  destruct (Js.contains "d" c) eqn:Hd; simpl.
  - destruct (createRoll_valid c Hv Hd)
      as (sign & numText & d & m & _ & _ & Hn & Hwf & _ & ->).
    destruct (Z.gtb_spec (poolCount numText) MAX_DICE); [by right; left|].
    destruct (Z.gtb_spec (faceCount d) MAX_FACES); [by right; right|].
    left. eexists. split; [done|]. simpl.
    pose proof (poolCount_nonneg numText Hn).
    pose proof (faceCount_nonneg d Hwf).
    repeat split; try lia.
    destruct d; simpl; auto.
  - left. by exists (ConstPart c).
Qed.

Lemma res_map_ok {A B} (f : A → Res B) (l : list A) :
  ∀ l', res_map f l = Ok l' → Forall2 (λ x y, f x = Ok y) l l'.
Proof.
  induction l as [|x xs IH]; intros l' H; simpl in H.
  - simplify_eq. constructor.
  - destruct (f x) as [y|] eqn:Hx; simpl in H; [|done].
    destruct (res_map f xs) as [ys|] eqn:Hxs; simpl in H; [|done].
    simplify_eq. constructor; auto.
Qed.

Lemma existsb_invalid (chunks : list string) :
  existsb isInvalidChunk chunks = false ↔ Forall (λ c, validChunk c = true) chunks.
Proof.
  unfold isInvalidChunk. induction chunks as [|c cs IH]; simpl.
  - split; [constructor | done].
  - rewrite orb_false_iff, negb_false_iff, IH. split.
    + intros [? ?]. by constructor.
    + by inversion 1.
Qed.

(** X11: the errors of [parse], in the order it tests for them.  It
    raises ExpressionTooLong for a raw length above 60; otherwise
    TooManyChunks for more than 10 chunks; otherwise InvalidChunk when a
    chunk fails the grammar; otherwise, all chunks being valid, only
    TooManyDice or DieTooBig, raised by a chunk that exceeds that limit.
    It raises nothing else: no RollLimitExceeded and no TypeError. *)
Theorem parse_error_kinds (expr : string) (e : Error) :
  parse expr = Throw e →
  (e = ExpressionTooLongError ∧ Js.length expr > MAX_LENGTH)
  ∨ (Js.length expr ≤ MAX_LENGTH
     ∧ ((e = TooManyChunksError
         ∧ Z.of_nat (length (chunk (normalize expr))) > MAX_CHUNKS)
        ∨ (Z.of_nat (length (chunk (normalize expr))) ≤ MAX_CHUNKS
           ∧ ((e = InvalidChunkError
               ∧ ∃ c, c ∈ chunk (normalize expr) ∧ validChunk c = false)
              ∨ (Forall (λ c, validChunk c = true) (chunk (normalize expr))
                 ∧ (e = TooManyDiceError ∨ e = DieTooBigError)
                 ∧ ∃ c, c ∈ chunk (normalize expr)
                        ∧ createRoll c = Throw e))))).
Proof.
  unfold parse. fold (normalize expr). intros H.
  destruct (Z.gtb_spec (Js.length expr) MAX_LENGTH) as [Hlong|Hlen].
  { left. simplify_eq. split; [done | lia]. }
  right. split; [done|].
  destruct (Z.gtb_spec (Z.of_nat (length (chunk (normalize expr)))) MAX_CHUNKS)
    as [Hmany|Hfew].
  { left. simplify_eq. split; [done | lia]. }
  right. split; [done|].
  destruct (existsb isInvalidChunk (chunk (normalize expr))) eqn:Hinv.
  - left. simplify_eq. split; [done|].
    apply existsb_exists in Hinv as (c & Hin & Hc).
    exists c. split; [by apply list_elem_of_In|].
    unfold isInvalidChunk in Hc. by apply negb_true_iff in Hc.
  - right. apply existsb_invalid in Hinv. split; [done|].
    destruct (res_map_throws _ _ _ H) as (c & Hin & Hc).
    rewrite Forall_forall in Hinv. pose proof (Hinv c Hin) as Hv.
    assert (Hroll : createRoll c = Throw e).
    { unfold createPart, createConst in Hc.
      destruct (negb (Js.contains "d" c)); [done|].
      destruct (createRoll c); simpl in Hc; [done | by simplify_eq]. }
    split; [|by exists c].
    destruct (createPart_valid c Hv) as [(p & Hp & _)|[Hp|Hp]];
      rewrite Hp in Hc; simplify_eq; auto.
Qed.

Lemma parse_error_kinds_witness :
  (TooManyDiceError = ExpressionTooLongError ∧ Js.length "2+101d6" > MAX_LENGTH)
  ∨ (Js.length "2+101d6" ≤ MAX_LENGTH
     ∧ ((TooManyDiceError = TooManyChunksError
         ∧ Z.of_nat (length (chunk (normalize "2+101d6"))) > MAX_CHUNKS)
        ∨ (Z.of_nat (length (chunk (normalize "2+101d6"))) ≤ MAX_CHUNKS
           ∧ ((TooManyDiceError = InvalidChunkError
               ∧ ∃ c, c ∈ chunk (normalize "2+101d6") ∧ validChunk c = false)
              ∨ (Forall (λ c, validChunk c = true) (chunk (normalize "2+101d6"))
                 ∧ (TooManyDiceError = TooManyDiceError
                    ∨ TooManyDiceError = DieTooBigError)
                 ∧ ∃ c, c ∈ chunk (normalize "2+101d6")
                        ∧ createRoll c = Throw TooManyDiceError))))).
Proof.
  apply (parse_error_kinds "2+101d6" TooManyDiceError). reflexivity.
Defined.

(** X12: TooManyChunks and InvalidChunk, exactly.  [parse] raises
    TooManyChunks if and only if the raw length is within 60 and the
    normalised expression splits into more than 10 chunks, whether those
    chunks are valid or not; it raises InvalidChunk if and only if the
    length and the chunk count are within their limits and some chunk
    fails the grammar, whatever limits the other chunks exceed. *)
Theorem parse_chunk_errors_iff (expr : string) :
  (parse expr = Throw TooManyChunksError
   ↔ Js.length expr ≤ MAX_LENGTH
     ∧ Z.of_nat (length (chunk (normalize expr))) > MAX_CHUNKS)
  ∧ (parse expr = Throw InvalidChunkError
     ↔ Js.length expr ≤ MAX_LENGTH
       ∧ Z.of_nat (length (chunk (normalize expr))) ≤ MAX_CHUNKS
       ∧ ∃ c, c ∈ chunk (normalize expr) ∧ validChunk c = false).
Proof.
  unfold parse. fold (normalize expr).
  destruct (Z.gtb_spec (Js.length expr) MAX_LENGTH) as [Hlong|Hlen].
  { split; split; (done || lia). }
  destruct (Z.gtb_spec (Z.of_nat (length (chunk (normalize expr)))) MAX_CHUNKS)
    as [Hmany|Hfew].
  { split; split; (done || lia). }
  destruct (existsb isInvalidChunk (chunk (normalize expr))) eqn:Hinv.
  - split; split; try (done || lia). intros _.
    apply existsb_exists in Hinv as (c & Hin & Hc).
    do 2 (split; [done|]). exists c. split; [by apply list_elem_of_In|].
    unfold isInvalidChunk in Hc. by apply negb_true_iff in Hc.
  - split; split; try lia.
    + intros H. destruct (res_map_throws _ _ _ H) as (c & _ & Hc).
      destruct (createPart_throws _ _ Hc) as [?|[?|?]]; done.
    + intros H. destruct (res_map_throws _ _ _ H) as (c & _ & Hc).
      destruct (createPart_throws _ _ Hc) as [?|[?|?]]; done.
    + intros (_ & _ & c & Hin & Hc). exfalso.
      apply existsb_invalid in Hinv. rewrite Forall_forall in Hinv.
      rewrite (Hinv c Hin) in Hc. done.
Qed.

(** X13: what [parse] returns.  A compiled expression has one compiled
    chunk for each chunk of the normalised expression, in order, at most
    10; every pool has a count from 0 to 100 and faces from 0 to 1000,
    with offset -2 only on a three-faced die and offset 0 otherwise;
    every constant is a valid chunk without a [d]. *)
Theorem parse_result_well_formed (expr : string) (parts : list Part) :
  parse expr = Ok parts →
  length parts = length (chunk (normalize expr))
  ∧ Z.of_nat (length parts) ≤ MAX_CHUNKS
  ∧ Forall2 (λ c p, createPart c = Ok p) (chunk (normalize expr)) parts
  ∧ Forall wellFormedPart parts.
Proof.
  unfold parse. fold (normalize expr). intros H.
  destruct (Js.length expr >? MAX_LENGTH); [done|].
  destruct (Z.gtb_spec (Z.of_nat (length (chunk (normalize expr)))) MAX_CHUNKS)
    as [|Hfew]; [done|].
  destruct (existsb isInvalidChunk (chunk (normalize expr))) eqn:Hinv; [done|].
  apply existsb_invalid in Hinv. apply res_map_ok in H.
  pose proof (Forall2_length _ _ _ H) as Hlen.
  split; [done|]. split; [lia|]. split; [done|].
  clear Hfew Hlen. induction H as [|c p cs ps Hc _ IH]; [constructor|].
  inversion Hinv as [|? ? Hv Hvs]; subst. constructor; [|by apply IH].
  destruct (createPart_valid c Hv) as [(p' & Hp & Hwf)|[Hp|Hp]];
    rewrite Hp in Hc; by simplify_eq.
Qed.

Lemma parse_result_well_formed_witness :
  length [RollPart (mkRoll false 3 3 (-2) None); ConstPart "-2"]
  = length (chunk (normalize "3dF - 2"))
  ∧ Z.of_nat (length [RollPart (mkRoll false 3 3 (-2) None); ConstPart "-2"])
    ≤ MAX_CHUNKS
  ∧ Forall2 (λ c p, createPart c = Ok p) (chunk (normalize "3dF - 2"))
      [RollPart (mkRoll false 3 3 (-2) None); ConstPart "-2"]
  ∧ Forall wellFormedPart
      [RollPart (mkRoll false 3 3 (-2) None); ConstPart "-2"].
Proof.
  apply (parse_result_well_formed "3dF - 2"). reflexivity.
Defined.

(** ** The chunk splitter, further *)

Lemma splitPoints_snoc (t : string) :
  ∀ b c,
    splitPoints (Some b) (t +:+ String c "")
    = (splitPoints (Some b) t
       + (if splitsBefore (Some (lastChar b t)) c then 1 else 0))%nat
    ∧ lastChar b (t +:+ String c "") = c.
Proof.
  induction t as [|x t IH]; intros b c.
  - rewrite append_nil_l. simpl. split; [lia | done].
  - rewrite append_cons. cbn [splitPoints lastChar].
    destruct (IH x c) as [-> ->]. split; [lia | done].
Qed.

Lemma chunkFrom_structure (s : string) :
  ∀ b t,
    splitPoints (Some b) t = O →
    ∃ t' rest,
      chunkFrom (Some (lastChar b t)) (String b t) s = String b t' :: rest
      ∧ length rest = splitPoints (Some (lastChar b t)) s
      ∧ splitPoints (Some b) t' = O
      ∧ Forall (λ c, ∃ x r, c = String x r ∧ Js.isSign x = true
                            ∧ splitPoints (Some x) r = O) rest.
Proof.
  induction s as [|c r IH]; intros b t Ht.
  - exists t, []. by repeat split.
  - cbn [chunkFrom splitPoints]. cbn [String.eqb negb]. rewrite andb_true_r.
    destruct (splitsBefore (Some (lastChar b t)) c) eqn:Hsp.
    + destruct (IH c "" eq_refl) as (t' & rest & He & Hl & Ht' & Hrest).
      cbn [lastChar] in He, Hl.
      exists t, (String c t' :: rest). rewrite He. repeat split; [| done |].
      * simpl. by rewrite Hl.
      * constructor; [|done]. exists c, t'. repeat split; [|done].
        unfold splitsBefore in Hsp. by apply andb_true_iff in Hsp as [? _].
    + destruct (splitPoints_snoc t b c) as [Hsn Hlast].
      rewrite Hsp, Ht in Hsn. rewrite append_cons.
      destruct (IH b (t +:+ String c "") Hsn) as (t' & rest & He & Hl & Ht' & Hrest).
      rewrite Hlast in He, Hl. by exists t', rest.
Qed.

(** X14: where the splitter cuts.  A string that is not empty splits
    into a first chunk that begins with the string's first character and
    one more chunk for every position after the first at which a sign
    stands that is not preceded by [r], [t] or [!].  Each of those
    chunks begins with its sign, and inside a chunk no such position is
    left.  The empty string gives one empty chunk. *)
Theorem chunk_structure (a : ascii) (r : string) :
  chunk "" = [""]
  ∧ ∃ t rest,
      chunk (String a r) = String a t :: rest
      ∧ length rest = splitPoints (Some a) r
      ∧ splitPoints (Some a) t = O
      ∧ Forall (λ c, ∃ x u, c = String x u ∧ Js.isSign x = true
                            ∧ splitPoints (Some x) u = O) rest.
Proof.
  split; [done|].
  unfold chunk. cbn [chunkFrom]. rewrite andb_false_r, append_nil_l.
  exact (chunkFrom_structure r a "" eq_refl).
Qed.

(** ** Constants *)

Lemma digit_is_not_sign (c : ascii) :
  Js.isDigit c = true → Js.isSign c = false.
Proof.
  intros Hc. unfold Js.isSign.
  by rewrite (digit_not_char c "+"), (digit_not_char c "-").
Qed.

Lemma splitPoints_digits (ds : string) :
  ∀ prev, Js.allDigits ds = true → splitPoints prev ds = O.
Proof.
  induction ds as [|c r IH]; intros prev Hd; [done|].
  simpl in Hd. apply andb_true_iff in Hd as [Hc Hr].
  cbn [splitPoints]. unfold splitsBefore.
  by rewrite (digit_is_not_sign c Hc), (IH _ Hr).
Qed.

(** A string with no split point after its first character is one
    chunk. *)
Lemma chunk_single (a : ascii) (r : string) :
  splitPoints (Some a) r = O → chunk (String a r) = [String a r].
Proof.
  intros Hsp. pose proof (chunkFrom_join (String a r) None "") as Hj.
  fold (chunk (String a r)) in Hj. rewrite append_nil_l in Hj.
  unfold chunk in *. cbn [chunkFrom] in *.
  rewrite andb_false_r, append_nil_l in *.
  destruct (chunkFrom_structure r a "" eq_refl) as (t & rest & He & Hl & _).
  cbn [lastChar] in He, Hl. rewrite He in *.
  rewrite Hsp in Hl. destruct rest; [|done].
  unfold joinChunks in Hj. simpl in Hj. rewrite append_empty_r in Hj.
  by rewrite Hj.
Qed.

Lemma normalize_digits (ds : string) :
  Js.allDigits ds = true → normalize ds = ds.
Proof.
  unfold normalize, Js.toLower.
  induction ds as [|c r IH]; [done|]. simpl.
  intros [Hc Hr]%andb_true_iff. pose proof (digit_bounds c Hc).
  assert (Js.lowerChar c = c) as ->.
  { unfold Js.lowerChar. destruct (N.leb_spec 65 (N_of_ascii c)); [lia | done]. }
  rewrite (digit_not_char c " ") by done. by rewrite IH.
Qed.

Lemma normalize_cons (x : ascii) (s : string) :
  normalize (String x s)
  = if Ascii.eqb (Js.lowerChar x) " " then normalize s
    else String (Js.lowerChar x) (normalize s).
Proof. reflexivity. Qed.

Lemma matchDiceChunkAt_digits (ds : string) :
  Js.allDigits ds = true → matchDiceChunkAt ds = None.
Proof.
  intros Hd. unfold matchDiceChunkAt.
  by rewrite <- (append_empty_r ds), spanDigits_app.
Qed.

(** X15: a constant.  An expression that is a run of digits, with or
    without a sign before it, compiles to one constant chunk, and
    evaluating it returns the number written, negated after a minus sign
    and clamped to the safe-integer range, as the sum and as the one
    entry of the unreduced result; the random source is not used. *)
Theorem constant_expression {Rand : Type} (random_die : Z → Rand → Z * Rand)
  (sign ds : string) (fuel : nat) (g : Rand) :
  sign = "" ∨ sign = "+" ∨ sign = "-" →
  Js.allDigits ds = true →
  ds ≠ "" →
  Js.length (sign +:+ ds) ≤ MAX_LENGTH →
  parse (sign +:+ ds) = Ok [ConstPart (sign +:+ ds)]
  ∧ evaluator random_die fuel [ConstPart (sign +:+ ds)] true g
    = Done (Reduced (Js.clamp (signedValue sign ds)), g)
  ∧ evaluator random_die fuel [ConstPart (sign +:+ ds)] false g
    = Done (Unreduced [Scalar (Js.clamp (signedValue sign ds))], g).
Proof.
  intros Hs Hd Hne Hlen.
  destruct ds as [|c r]; [done|]. clear Hne.
  pose proof Hd as Hd'. simpl in Hd'. apply andb_true_iff in Hd' as [Hc Hr].
  assert (Hnorm : normalize (sign +:+ String c r) = sign +:+ String c r).
  { destruct Hs as [->|[->| ->]]; rewrite ?append_nil_l, ?append_cons, ?append_nil_l.
    - by apply normalize_digits.
    - by rewrite normalize_cons, (normalize_digits _ Hd).
    - by rewrite normalize_cons, (normalize_digits _ Hd). }
  assert (Hchunk : chunk (sign +:+ String c r) = [sign +:+ String c r]).
  { destruct Hs as [->|[->| ->]]; rewrite ?append_nil_l, ?append_cons, ?append_nil_l;
      apply chunk_single; by apply splitPoints_digits. }
  assert (Hvalid : validChunk (sign +:+ String c r) = true).
  { unfold validChunk.
    destruct Hs as [->|[->| ->]]; rewrite ?append_nil_l, ?append_cons, ?append_nil_l.
    - rewrite (digit_is_not_sign c Hc), matchDiceChunkAt_digits by done.
      cbn [String.eqb negb andb]. done.
    - change (Js.isSign "+") with true. cbv iota.
      rewrite matchDiceChunkAt_digits by done. cbn [String.eqb negb andb]. done.
    - change (Js.isSign "-") with true. cbv iota.
      rewrite matchDiceChunkAt_digits by done. cbn [String.eqb negb andb]. done. }
  assert (Hnod : Js.contains "d" (sign +:+ String c r) = false).
  { rewrite contains_app, (digits_contain_no_d _ Hd).
    by destruct Hs as [->|[->| ->]]. }
  assert (Hval : Js.toSafeInteger (sign +:+ String c r)
                 = Js.clamp (signedValue sign (String c r))).
  { unfold signedValue.
    destruct Hs as [->|[->| ->]]; rewrite ?append_nil_l, ?append_cons, ?append_nil_l.
    - unfold Js.toSafeInteger.
      by rewrite (digit_not_char c "-"), (digit_not_char c "+"), Hd.
    - unfold Js.toSafeInteger.
      change (Ascii.eqb "+" "-") with false. change (Ascii.eqb "+" "+") with true.
      cbv iota. by rewrite Hd.
    - unfold Js.toSafeInteger. change (Ascii.eqb "-" "-") with true.
      cbv iota. by rewrite Hd. }
  split.
  - unfold parse. fold (normalize (sign +:+ String c r)).
    destruct (Z.gtb_spec (Js.length (sign +:+ String c r)) MAX_LENGTH); [lia|].
    rewrite Hnorm, Hchunk. cbn [length existsb res_map res_bind orb].
    unfold isInvalidChunk. rewrite Hvalid. cbn [negb].
    unfold createPart. rewrite Hnod. done.
  - unfold evaluator; simpl. by rewrite Hval.
Qed.

Lemma constant_expression_witness :
  parse ("-" +:+ "20") = Ok [ConstPart ("-" +:+ "20")]
  ∧ evaluator scripted 0 [ConstPart ("-" +:+ "20")] true [(6, [1])]
    = Done (Reduced (Js.clamp (signedValue "-" "20")), [(6, [1])])
  ∧ evaluator scripted 0 [ConstPart ("-" +:+ "20")] false [(6, [1])]
    = Done (Unreduced [Scalar (Js.clamp (signedValue "-" "20"))], [(6, [1])]).
Proof.
  apply (constant_expression scripted "-" "20" 0 [(6, [1])]).
  - right; right; reflexivity.
  - reflexivity.
  - discriminate.
  - vm_compute. discriminate.
Defined.

(** ** The evaluator, further *)



(** X17: the unreduced result, chunk by chunk.  For a compiled
    expression it has one entry for each chunk of the normalised
    expression, in order: the number the chunk converts to for a chunk
    without a [d], an array for a chunk with one. *)
Theorem unreduced_follows_chunks {Rand : Type}
  (random_die : Z → Rand → Z * Rand) (expr : string) (parts : list Part)
  (fuel : nat) (g g' : Rand) (vs : list PartValue) :
  parse expr = Ok parts →
  evaluator random_die fuel parts false g = Done (Unreduced vs, g') →
  Forall2 (λ c v,
             if Js.contains "d" c then ∃ rolls, v = Pool rolls
             else v = Scalar (Js.toSafeInteger c))
    (chunk (normalize expr)) vs.
Proof.
  intros Hp Hu. unfold evaluator in Hu.
  destruct (roll random_die fuel parts g) as [[vs1 g1]| |] eqn:Hr;
    simpl in Hu; try done.
  simplify_eq. apply roll_shape in Hr.
  unfold parse in Hp. fold (normalize expr) in Hp.
  destruct (Js.length expr >? MAX_LENGTH); [done|].
  destruct (_ >? MAX_CHUNKS); [done|].
  destruct (existsb isInvalidChunk _); [done|].
  apply res_map_ok in Hp.
  revert vs Hr. induction Hp as [|c p cs ps Hc _ IH]; intros vs Hr.
  - inversion Hr. constructor.
  - inversion Hr as [|? v ? vs' Hv Hvs]; subst. constructor; [|by apply IH].
    unfold createPart, createConst in Hc.
    destruct (Js.contains "d" c); simpl in Hc.
    + destruct (createRoll c); simpl in Hc; [|done]. simplify_eq.
      destruct v; simpl in Hv; [done | by eexists].
    + simplify_eq. destruct v; simpl in Hv; [by subst | done].
Qed.

Lemma unreduced_follows_chunks_witness :
  Forall2 (λ c v,
             if Js.contains "d" c then ∃ rolls, v = Pool rolls
             else v = Scalar (Js.toSafeInteger c))
    (chunk (normalize "2d4 + 2")) [Pool [1; 3]; Scalar 2].
Proof.
  apply (unreduced_follows_chunks scripted "2d4 + 2"
           [RollPart (mkRoll false 2 4 0 None); ConstPart "+2"]
           0 [(4, [1; 3])] [(4, [])]); reflexivity.
Defined.

Section Outcomes.

Context {Rand : Type} (random_die : Z → Rand → Z * Rand).

Lemma runRoll_outcomes (k : nat) (r : CompiledRoll) (g : Rand) :
  (∃ out g', runRoll random_die (101 + k) r g = Done (out, g'))
  ∨ (runRoll random_die (101 + k) r g = Raise RollLimitExceededError
     ∧ usesExplode (RollPart r) = true).
Proof.
  unfold runRoll. destruct (rollDice _ _ _ _ g) as [rolls g1].
  unfold runModifier, usesExplode.
  destruct (applyModifier r) as [[kind arg]|]; [destruct kind|];
    try (left; cbn [run_bind]; by eauto).
  - destruct (reroll _ _ _ _) as [out g2]. left. cbn [run_bind]. by eauto.
  - destruct (explode_returns arg (rollOne random_die (die r) (offset r))
                rolls g1 (101 + k)) as [Hr|(out & g' & Hd & _)].
    + unfold MAX_DICE. lia.
    + right. by rewrite Hr.
    + left. rewrite Hd. cbn [run_bind]. by eauto.
Qed.

Lemma runRoll_without_explode (fuel : nat) (r : CompiledRoll) (g : Rand) :
  usesExplode (RollPart r) = false →
  ∃ out g', runRoll random_die fuel r g = Done (out, g').
Proof.
  unfold runRoll, usesExplode. destruct (rollDice _ _ _ _ g) as [rolls g1].
  unfold runModifier.
  destruct (applyModifier r) as [[kind arg]|]; [destruct kind|]; intros H;
    try done; try (cbn [run_bind]; by eauto).
  destruct (reroll _ _ _ _) as [out g2]. cbn [run_bind]. by eauto.
Qed.

Lemma roll_outcomes (k : nat) (parts : list Part) :
  ∀ g,
    (∃ vs g', roll random_die (101 + k) parts g = Done (vs, g'))
    ∨ (roll random_die (101 + k) parts g = Raise RollLimitExceededError
       ∧ existsb usesExplode parts = true).
Proof.
  induction parts as [|p ps IH]; intros g; [left; by eauto|].
  cbn [roll existsb].
  assert (Hp : (∃ v g1, runPart random_die (101 + k) p g = Done (v, g1))
               ∨ (runPart random_die (101 + k) p g = Raise RollLimitExceededError
                  ∧ usesExplode p = true)).
  { destruct p as [c|r]; [left; simpl; by eauto|].
    cbn [runPart].
    destruct (runRoll_outcomes k r g) as [(out & g1 & ->)|[-> He]];
      [left; simpl; by eauto | by right]. }
  destruct Hp as [(v & g1 & ->)|[-> He]]; [|right; by rewrite He].
  cbn [run_bind].
  destruct (IH g1) as [(vs & g2 & ->)|[-> He]]; [left; simpl; by eauto|].
  right. by rewrite He, orb_true_r.
Qed.

Lemma roll_without_explode (fuel : nat) (parts : list Part) :
  existsb usesExplode parts = false →
  ∀ g, ∃ vs g', roll random_die fuel parts g = Done (vs, g').
Proof.
  induction parts as [|p ps IH]; intros He g; [by eauto|].
  cbn [existsb] in He. apply orb_false_iff in He as [Hp Hps].
  cbn [roll].
  assert (∃ v g1, runPart random_die fuel p g = Done (v, g1)) as (v & g1 & ->).
  { destruct p as [c|r]; [simpl; by eauto|]. cbn [runPart].
    destruct (runRoll_without_explode fuel r g Hp) as (out & g1 & ->).
    simpl. by eauto. }
  cbn [run_bind]. destruct (IH Hps g1) as (vs & g2 & ->). simpl. by eauto.
Qed.

End Outcomes.

(** X18: evaluation returns.  With room for 101 evaluations of the
    explode loop's condition, evaluating any compiled chunks ends in a
    value, in RollLimitExceeded, which only a chunk with the explode
    modifier raises, or, for the reduced call alone, in the TypeError of
    summing no value.  Without an explode chunk the explode loop is
    never entered, and evaluation ends in a value or in that
    TypeError. *)
Theorem evaluator_outcomes {Rand : Type} (random_die : Z → Rand → Z * Rand)
  (parts : list Part) (reduce : bool) (g : Rand) (k : nat) :
  ((∃ v g', evaluator random_die (101 + k) parts reduce g = Done (v, g'))
   ∨ (evaluator random_die (101 + k) parts reduce g
      = Raise RollLimitExceededError
      ∧ existsb usesExplode parts = true)
   ∨ (evaluator random_die (101 + k) parts reduce g = Raise TypeError
      ∧ reduce = true))
  ∧ (existsb usesExplode parts = false →
     ∀ fuel,
       (∃ v g', evaluator random_die fuel parts reduce g = Done (v, g'))
       ∨ (evaluator random_die fuel parts reduce g = Raise TypeError
          ∧ reduce = true)).
Proof.
  split.
  - unfold evaluator.
    destruct (roll_outcomes random_die k parts g) as [(vs & g' & ->)|[-> He]];
      [|by right; left].
    cbn [run_bind]. destruct reduce; [|left; by eauto].
    destruct (flat vs) as [|x xs]; [right; right; by simpl|].
    left. simpl. by eauto.
  - intros He fuel. unfold evaluator.
    destruct (roll_without_explode random_die fuel parts He g) as (vs & g' & ->).
    cbn [run_bind]. destruct reduce; [|left; by eauto].
    destruct (flat vs) as [|x xs]; [right; by simpl|].
    left. simpl. by eauto.
Qed.

(** ** Pools *)

Lemma sumOf_replicate (n : nat) (x : Z) :
  sumOf (replicate n x) = Z.of_nat n * x.
Proof.
  induction n as [|n IH]; [done|].
  cbn [replicate]. rewrite sumOf_cons, IH. lia.
Qed.

Lemma rollMany_uniform {Rand : Type} (random_die : Z → Rand → Z * Rand)
  (faces off v : Z) (n : nat) :
  (∀ g0, (random_die faces g0).1 = v) →
  ∀ g, (rollMany random_die faces off n g).1 = replicate n (v + off).
Proof.
  intros Hv. induction n as [|n IH]; intros g; [done|].
  cbn [rollMany]. unfold rollOne. pose proof (Hv g) as Hg.
  destruct (random_die faces g) as [x g1]. specialize (IH g1).
  destruct (rollMany random_die faces off n g1) as [rest g2].
  simpl in *. by rewrite Hg, IH.
Qed.

(** X19: a pool without modifier against a die that always shows [v].
    [n] dice, [n] at least 1, each worth [v] plus the offset, give [n]
    times that value as the sum, negated for a negative chunk, and that
    value [n] times over as the unreduced pool. *)
Theorem uniform_pool {Rand : Type} (random_die : Z → Rand → Z * Rand)
  (neg : bool) (n faces off v : Z) (fuel : nat) (g : Rand) :
  (∀ g0, (random_die faces g0).1 = v) →
  0 < n →
  ∃ g',
    evaluator random_die fuel [RollPart (mkRoll neg n faces off None)] true g
    = Done (Reduced (n * (if neg then - (v + off) else v + off)), g')
    ∧ evaluator random_die fuel [RollPart (mkRoll neg n faces off None)]
        false g
      = Done (Unreduced
                [Pool (replicate (Z.to_nat n)
                         (if neg then - (v + off) else v + off))], g').
Proof.
  intros Hv Hn. unfold evaluator, roll, runPart, runRoll, rollDice, runModifier.
  cbn [die offset num negative applyModifier].
  pose proof (rollMany_uniform random_die faces off v (Z.to_nat n) Hv g) as Hr.
  destruct (rollMany random_die faces off (Z.to_nat n) g) as [rolls g1].
  simpl in Hr. subst rolls. exists g1. cbn [run_bind].
  assert (Hneg : maybeNegate neg (replicate (Z.to_nat n) (v + off))
                 = replicate (Z.to_nat n) (if neg then - (v + off) else v + off)).
  { destruct neg; [|done]. unfold maybeNegate.
    by rewrite <- (fmap_replicate Z.opp). }
  rewrite Hneg. split; [|done].
  cbn [flat flat_map]. rewrite app_nil_r.
  pose proof (sumOf_replicate (Z.to_nat n) (if neg then - (v + off) else v + off)) as Hs.
  destruct (Z.to_nat n) as [|m] eqn:Hm; [lia|].
  cbn [replicate reduceSum] in *. unfold sumOf in Hs. cbn [fold_left] in Hs.
  change (sum 0 ?x) with x in Hs. rewrite Hs. do 3 f_equal. lia.
Qed.

Lemma uniform_pool_witness :
  ∃ g',
    evaluator (λ (_ : Z) (g : unit), (1, g)) 0
      [RollPart (mkRoll true 4 10 0 None)] true tt
    = Done (Reduced (4 * (if true then - (1 + 0) else 1 + 0)), g')
    ∧ evaluator (λ (_ : Z) (g : unit), (1, g)) 0
        [RollPart (mkRoll true 4 10 0 None)] false tt
      = Done (Unreduced
                [Pool (replicate (Z.to_nat 4)
                         (if true then - (1 + 0) else 1 + 0))], g').
Proof.
  apply (uniform_pool (λ (_ : Z) (g : unit), (1, g)) true 4 10 0 1 0 tt).
  - intros g0. reflexivity.
  - lia.
Defined.

(** X20: the sign before a pool.  For a pool chunk written without a
    sign, a plus before it compiles to the same pool, and a minus to the
    same pool marked negative; evaluating the negative pool rolls the
    same dice and returns each value negated. *)
Theorem leading_sign (body : string) (r : CompiledRoll) :
  Js.startsWith body "-" = false →
  Js.startsWith body "+" = false →
  createRoll body = Ok r →
  negative r = false
  ∧ createRoll (String "+" body) = Ok r
  ∧ createRoll (String "-" body)
    = Ok (mkRoll true (num r) (die r) (offset r) (applyModifier r))
  ∧ ∀ (Rand : Type) (random_die : Z → Rand → Z * Rand) (fuel : nat)
      (g : Rand),
      runRoll random_die fuel
        (mkRoll true (num r) (die r) (offset r) (applyModifier r)) g
      = run_bind (runRoll random_die fuel r g)
          (λ '(out, g'), Done (map Z.opp out, g')).
Proof.
  intros Hm Hp Hr.
  unfold createRoll in *. cbn [Js.startsWith Js.dropFirst].
  change (Ascii.eqb "+" "-") with false. change (Ascii.eqb "+" "+") with true.
  change (Ascii.eqb "-" "-") with true. rewrite Hm, Hp in Hr.
  cbn [orb] in *. cbv iota in *.
  destruct (searchDiceChunk body) as [grp|]; [|done].
  destruct (_ >? MAX_DICE); [done|].
  destruct (_ >? MAX_FACES); [done|].
  destruct (createModifier _ _ _ _) as [m|]; simpl in *; [|done].
  simplify_eq. cbn [negative num die offset applyModifier].
  repeat split; try done.
  intros Rand random_die fuel g. unfold runRoll.
  cbn [negative num die offset applyModifier].
  destruct (rollDice _ _ _ _ g) as [rolls g1].
  unfold runModifier. cbn [negative num die offset applyModifier].
  destruct m as [[kind arg]|]; [destruct kind|]; cbn [run_bind]; try done.
  - by destruct (reroll _ _ _ _).
  - destruct (explode _ _ _ _ _) as [[out g2]| |]; done.
Qed.

Lemma leading_sign_witness :
  negative (mkRoll false 2 20 0 (Some (KeepHighest, 1))) = false
  ∧ createRoll (String "+" "2d20kh")
    = Ok (mkRoll false 2 20 0 (Some (KeepHighest, 1)))
  ∧ createRoll (String "-" "2d20kh")
    = Ok (mkRoll true
            (num (mkRoll false 2 20 0 (Some (KeepHighest, 1))))
            (die (mkRoll false 2 20 0 (Some (KeepHighest, 1))))
            (offset (mkRoll false 2 20 0 (Some (KeepHighest, 1))))
            (applyModifier (mkRoll false 2 20 0 (Some (KeepHighest, 1)))))
  ∧ ∀ (Rand : Type) (random_die : Z → Rand → Z * Rand) (fuel : nat)
      (g : Rand),
      runRoll random_die fuel
        (mkRoll true
           (num (mkRoll false 2 20 0 (Some (KeepHighest, 1))))
           (die (mkRoll false 2 20 0 (Some (KeepHighest, 1))))
           (offset (mkRoll false 2 20 0 (Some (KeepHighest, 1))))
           (applyModifier (mkRoll false 2 20 0 (Some (KeepHighest, 1))))) g
      = run_bind
          (runRoll random_die fuel
             (mkRoll false 2 20 0 (Some (KeepHighest, 1))) g)
          (λ '(out, g'), Done (map Z.opp out, g')).
Proof.
  apply (leading_sign "2d20kh" (mkRoll false 2 20 0 (Some (KeepHighest, 1))));
    reflexivity.
Defined.

(** ** The grammar, both ways *)

Lemma spanDigits_all (ds : string) :
  Js.allDigits ds = true → Js.spanDigits ds = (ds, "").
Proof.
  intros Hd. by rewrite <- (append_empty_r ds) at 1; rewrite spanDigits_app.
Qed.

Lemma modifierText_no_digit (m : option (ModKind * string)) :
  startsWithDigit (modifierText m) = false.
Proof. destruct m as [[[] a]|]; done. Qed.

Lemma matchDie_written (d : DieSpec) (t : string) :
  wellFormedDie d → startsWithDigit t = false →
  matchDie (dieText d +:+ t) = Some (dieText d, t).
Proof.
  intros Hd Ht. destruct d as [| |ds]; [done | done |].
  destruct Hd as [Hne Hds]. simpl.
  destruct ds as [|c r]; [done|]. rewrite append_cons.
  unfold matchDie. simpl in Hds. apply andb_true_iff in Hds as [Hc Hr].
  rewrite !(digit_not_char c) by done. simpl.
  by rewrite Hc, (spanDigits_app r).
Qed.

Lemma matchModifier_written (k : ModKind) (a : string) :
  wellFormedArg k a →
  matchModifier (modToken k +:+ a) = Some (modToken k +:+ a, "").
Proof.
  intros [Hd|(Hk & c & ds & -> & Hc & Hd)].
  - destruct k; cbn [modToken]; rewrite !append_cons, append_nil_l;
      unfold matchModifier; cbn [Ascii.eqb Bool.eqb orb andb takesSignedArg];
      try (by rewrite (spanDigits_all a Hd)).
    all: destruct a as [|c r]; [done|];
      pose proof Hd as Hd'; simpl in Hd'; apply andb_true_iff in Hd' as [Hc _];
      by rewrite (digit_is_not_sign c Hc), (spanDigits_all _ Hd).
  - destruct Hk as [->|[->| ->]]; cbn [modToken];
      rewrite !append_cons, append_nil_l; unfold matchModifier;
      cbn [Ascii.eqb Bool.eqb orb andb takesSignedArg];
      by rewrite Hc, (spanDigits_all ds Hd).
Qed.

(** A chunk assembled from its parts matches the dice pattern in full. *)
Lemma matchDiceChunkAt_written (numText : string) (d : DieSpec)
  (m : option (ModKind * string)) :
  Js.allDigits numText = true → wellFormedDie d →
  match m with Some (k, a) => wellFormedArg k a | None => True end →
  ∃ g, matchDiceChunkAt (numText +:+ "d" +:+ dieText d +:+ modifierText m)
       = Some (g, "").
Proof.
  intros Hn Hd Hm. unfold matchDiceChunkAt.
  rewrite spanDigits_app by done.
  rewrite append_cons, append_nil_l. simpl.
  rewrite matchDie_written by (done || apply modifierText_no_digit).
  destruct m as [[k a]|]; simpl.
  - rewrite matchModifier_written by done. by eexists.
  - by eexists.
Qed.

(** What a full match of the dice pattern says of the chunk. *)
Lemma matched_chunk_form (body : string) (g : Groups) :
  matchDiceChunkAt body = Some (g, "") →
  ∃ (numText : string) (d : DieSpec) (m : option (ModKind * string)),
    body = numText +:+ "d" +:+ dieText d +:+ modifierText m
    ∧ Js.allDigits numText = true
    ∧ wellFormedDie d
    ∧ match m with Some (k, a) => wellFormedArg k a | None => True end.
Proof.
  intros Hm.
  destruct (matchDiceChunkAt_inv _ _ _ Hm)
    as (Hn & (d & Hdie & Hwf) & r3 & Hbody & Hmod).
  exists (g_num g), d. rewrite Hdie in Hbody.
  destruct (g_modifier g) as [t|].
  - destruct (matchModifier_shape _ _ _ Hmod) as (-> & k & a & -> & Hwa & _).
    exists (Some (k, a)). by rewrite append_empty_r in Hbody.
  - exists None. by subst.
Qed.

Lemma body_of_signed (sign body : string) :
  sign = "" ∨ sign = "+" ∨ sign = "-" →
  (sign = "" → Js.startsWith body "-" = false ∧ Js.startsWith body "+" = false) →
  rollExprOf (sign +:+ body) = body.
Proof.
  intros [->|[->| ->]] H; [|done|done].
  destruct (H eq_refl) as [H1 H2]. rewrite append_nil_l.
  unfold rollExprOf. by rewrite H1, H2.
Qed.

(** X21: the chunk grammar, both ways.  A chunk is valid if and only if
    it is an optional sign followed either by one digit or more, or by
    a dice pool: a count that may be empty, [d], the faces ([f], [%] or
    one digit or more) and then nothing or a modifier token with its
    argument text (digits, possibly none; for [r], [t] and [!] an
    optional sign before them). *)
Theorem valid_chunk_iff (chunk : string) :
  validChunk chunk = true
  ↔ ∃ sign body,
      chunk = sign +:+ body
      ∧ (sign = "" ∨ sign = "+" ∨ sign = "-")
      ∧ ((Js.allDigits body = true ∧ body ≠ "")
         ∨ ∃ (numText : string) (d : DieSpec)
             (m : option (ModKind * string)),
             body = numText +:+ "d" +:+ dieText d +:+ modifierText m
             ∧ Js.allDigits numText = true
             ∧ wellFormedDie d
             ∧ match m with
               | Some (k, a) => wellFormedArg k a
               | None => True
               end).
Proof.
  split.
  - intros Hv. unfold validChunk in Hv.
    destruct (rollExprOf_split chunk) as [_ Hbody]. rewrite Hbody in Hv.
    destruct (chunk_sign_split chunk) as (sign & Hs & Heq & _).
    exists sign, (rollExprOf chunk). do 2 (split; [done|]).
    destruct (matchDiceChunkAt (rollExprOf chunk)) as [[g r]|] eqn:Hm.
    + destruct r.
      * right. by eapply matched_chunk_form.
      * left. apply andb_true_iff in Hv as [Hne Hd]. split; [done|].
        intros E. by rewrite E in Hne.
    + left. apply andb_true_iff in Hv as [Hne Hd]. split; [done|].
      intros E. by rewrite E in Hne.
  - intros (sign & body & -> & Hs & Hbody).
    assert (Hfirst : sign = "" → Js.startsWith body "-" = false
                                 ∧ Js.startsWith body "+" = false).
    { intros _. destruct Hbody as [[Hd Hne]|(numText & d & m & -> & Hn & _)].
      - destruct body as [|c r]; [done|]. simpl in Hd.
        apply andb_true_iff in Hd as [Hc _]. simpl.
        by rewrite !(digit_not_char c).
      - by rewrite !startsWith_built. }
    unfold validChunk.
    destruct (rollExprOf_split (sign +:+ body)) as [_ ->].
    rewrite (body_of_signed sign body Hs Hfirst).
    destruct Hbody as [[Hd Hne]|(numText & d & m & -> & Hn & Hwf & Hm)].
    + rewrite matchDiceChunkAt_digits by done. rewrite Hd, andb_true_r.
      destruct body; [done | done].
    + destruct (matchDiceChunkAt_written numText d m Hn Hwf Hm) as [g ->]. done.
Qed.
